(** * The game state engine of the classic snake game

    A shallow embedding of the logic of [src/snake_game_frontend/src/SnakeGame.js]:
    the React state of the [SnakeGame] component, its key handler, the body
    of the [moveTick] effect, [generateFood], [handleRestart] and the effect
    that draws the board, as the sequence of calls it makes on the canvas.

    Conventions.
    - JS numbers that the game handles are small integers; they are [Z] here
      and [===] on them is [Z.eqb].
    - A JS array is a [list], head of the snake first; [unshift] is [cons],
      [pop] is [removelast], [some] is [existsb].
    - [Math.floor(Math.random() * GRID_SIZE)] is one draw of a random
      source.  The source is a stream [rnd : nat -> Z] of such draws and a
      position in it; a call that draws returns the position it has reached.
    - [while (true)] in [generateFood] is run with fuel: [None] is "no result
      within [fuel] iterations".
    - [directionRef.current] and [snakeRef.current] are assigned at every
      render, so the handler and the effect read the [direction] and the
      [snake] of the state. *)

From Stdlib Require Import ZArith List Bool String Lia.
Import ListNotations.
Open Scope string_scope.
Open Scope Z_scope.

(** ** Data *)

(** [{ x: ..., y: ... }]: cells of the grid and direction vectors alike. *)
Record Cell : Type := mkCell { x : Z; y : Z }.

Definition GRID_SIZE : Z := 16.

Definition INITIAL_SNAKE : list Cell :=
  [ {| x := 8; y := 8 |};
    {| x := 7; y := 8 |};
    {| x := 6; y := 8 |} ].

Definition INITIAL_DIRECTION : Cell := {| x := 1; y := 0 |}.

(** The [useState] hooks of the component. *)
Record GameState : Type := mkState {
  snake : list Cell;
  direction : Cell;
  food : Cell;
  score : Z;
  gameOver : bool;
  moveTick : Z
}.

(** The setters, one field replaced at a time. *)
Definition setSnake (v : list Cell) (s : GameState) : GameState :=
  mkState v (direction s) (food s) (score s) (gameOver s) (moveTick s).
Definition setDirection (v : Cell) (s : GameState) : GameState :=
  mkState (snake s) v (food s) (score s) (gameOver s) (moveTick s).
Definition setFood (v : Cell) (s : GameState) : GameState :=
  mkState (snake s) (direction s) v (score s) (gameOver s) (moveTick s).
Definition setScore (f : Z -> Z) (s : GameState) : GameState :=
  mkState (snake s) (direction s) (food s) (f (score s)) (gameOver s) (moveTick s).
Definition setGameOver (v : bool) (s : GameState) : GameState :=
  mkState (snake s) (direction s) (food s) (score s) v (moveTick s).
Definition setMoveTick (f : Z -> Z) (s : GameState) : GameState :=
  mkState (snake s) (direction s) (food s) (score s) (gameOver s) (f (moveTick s)).

(** [seg.x === c.x && seg.y === c.y], the test inside both [some] calls. *)
Definition same_cell (c seg : Cell) : bool :=
  (x seg =? x c) && (y seg =? y c).

(** [arr.some(seg => seg.x === c.x && seg.y === c.y)] *)
Definition some_same (c : Cell) (arr : list Cell) : bool :=
  existsb (same_cell c) arr.

(** ** generateFood *)

(** One candidate: two consecutive draws, [x] first. *)
Definition candidate (rnd : nat -> Z) (pos : nat) : Cell :=
  {| x := rnd pos; y := rnd (S pos) |}.

(** The loop of [generateFood], at most [fuel] iterations.  The result is
    the cell returned and the position reached in the random source. *)
Fixpoint generateFood (fuel : nat) (rnd : nat -> Z) (pos : nat)
    (snakeArr : list Cell) : option (Cell * nat) :=
  match fuel with
  | O => None
  | S fuel' =>
      let newFood := candidate rnd pos in
      if negb (some_same newFood snakeArr)
      then Some (newFood, S (S pos))
      else generateFood fuel' rnd (S (S pos)) snakeArr
  end.

(** ** The key handler *)

(** [list.includes(key)] *)
Definition includes (l : list string) (key : string) : bool :=
  existsb (String.eqb key) l.

(** The [if / else if] chain that maps a key to [newDir]; [None] is
    [undefined]. *)
Definition keyDir (key : string) : option Cell :=
  if includes ["ArrowUp"; "w"; "W"] key then Some {| x := 0; y := -1 |}
  else if includes ["ArrowDown"; "s"; "S"] key then Some {| x := 0; y := 1 |}
  else if includes ["ArrowLeft"; "a"; "A"] key then Some {| x := -1; y := 0 |}
  else if includes ["ArrowRight"; "d"; "D"] key then Some {| x := 1; y := 0 |}
  else None.

(** The reversal test of the handler:
    [newDir.x === -directionRef.current.x && newDir.y === -directionRef.current.y]. *)
Definition reverses (newDir cur : Cell) : bool :=
  (x newDir =? - x cur) && (y newDir =? - y cur).

Definition handleKeyDown (key : string) (s : GameState) : GameState :=
  if gameOver s then s
  else
    match keyDir key with
    | Some newDir =>
        if negb (reverses newDir (direction s))
        then setDirection newDir s
        else s
    | None => s
    end.

(** ** The moveTick effect *)

(** The effect returns nothing; the label names the branch that ran. *)
Inductive TransitionResult : Type := Moved | Ate | Crashed | Noop.

Inductive outcome : Type :=
| Returns (s' : GameState) (pos' : nat) (r : TransitionResult)
| Throws        (* [newSnake[0]] is [undefined]: TypeError *)
| OutOfFuel.    (* [generateFood] has not returned within the fuel *)

Definition nextHeadOf (head dir : Cell) : Cell :=
  {| x := x head + x dir; y := y head + y dir |}.

(** The condition of the food [if]:
    [nextHead.x === food.x && nextHead.y === food.y]. *)
Definition eats (nextHead food : Cell) : bool :=
  (x nextHead =? x food) && (y nextHead =? y food).

(** The condition of the collision [if], in the order it is written. *)
Definition collides (nextHead : Cell) (newSnake : list Cell) : bool :=
  (x nextHead <? 0) ||
  (y nextHead <? 0) ||
  (x nextHead >=? GRID_SIZE) ||
  (y nextHead >=? GRID_SIZE) ||
  some_same nextHead newSnake.

Definition tick (fuel : nat) (rnd : nat -> Z) (pos : nat) (s : GameState)
    : outcome :=
  if gameOver s then Returns s pos Noop
  else
    let newSnake := snake s in
    match newSnake with
    | [] => Throws
    | head :: _ =>
        let nextHead := nextHeadOf head (direction s) in
        if collides nextHead newSnake
        then Returns (setGameOver true s) pos Crashed
        else
          let newSnake := nextHead :: newSnake in
          if eats nextHead (food s)
          then
            match generateFood fuel rnd pos newSnake with
            | Some (newFood, pos') =>
                Returns
                  (setSnake newSnake
                     (setFood newFood (setScore (fun score => score + 1) s)))
                  pos' Ate
            | None => OutOfFuel
            end
          else Returns (setSnake (removelast newSnake) s) pos Moved
    end.

(** The callback of [setInterval]: [setMoveTick(tick => tick + 1)].  The
    counter only triggers the effect; the effect itself never reads it. *)
Definition intervalFire (s : GameState) : GameState :=
  setMoveTick (fun tick => tick + 1) s.

(** ** handleRestart and the first render *)

Definition handleRestart (fuel : nat) (rnd : nat -> Z) (pos : nat)
    (s : GameState) : option (GameState * nat) :=
  match generateFood fuel rnd pos INITIAL_SNAKE with
  | Some (newFood, pos') =>
      Some
        (setMoveTick (fun _ => 0)
           (setGameOver false
              (setScore (fun _ => 0)
                 (setFood newFood
                    (setDirection INITIAL_DIRECTION
                       (setSnake INITIAL_SNAKE s))))),
         pos')
  | None => None
  end.

(** The initial values given to the [useState] hooks. *)
Definition initialState (fuel : nat) (rnd : nat -> Z) (pos : nat)
    : option (GameState * nat) :=
  match generateFood fuel rnd pos INITIAL_SNAKE with
  | Some (newFood, pos') =>
      Some (mkState INITIAL_SNAKE INITIAL_DIRECTION newFood 0 false 0, pos')
  | None => None
  end.

(** ** Executions *)

(** What can happen to the component: a key is pressed, the interval
    fires, the [moveTick] effect runs, the restart button is clicked.  React
    runs the effect after a render in which [moveTick] has changed and after
    the first render; an execution here may run it at any time, which
    includes every order React can produce.  The position of the random
    source at an operation is left free as well: [generateFood(INITIAL_SNAKE)],
    the argument of [useState], is evaluated and dropped at every render. *)
Inductive event : Type :=
| KeyDown (key : string)
| Interval
| MoveTick
| Restart.

Inductive step (rnd : nat -> Z) : GameState -> event -> GameState -> Prop :=
| step_key : forall key s,
    step rnd s (KeyDown key) (handleKeyDown key s)
| step_interval : forall s,
    step rnd s Interval (intervalFire s)
| step_tick : forall fuel pos s s' pos' r,
    tick fuel rnd pos s = Returns s' pos' r ->
    step rnd s MoveTick s'
| step_restart : forall fuel pos s s' pos',
    handleRestart fuel rnd pos s = Some (s', pos') ->
    step rnd s Restart s'.

Inductive reachable (rnd : nat -> Z) : GameState -> Prop :=
| reach_init : forall fuel pos s pos',
    initialState fuel rnd pos = Some (s, pos') ->
    reachable rnd s
| reach_step : forall s e s',
    reachable rnd s -> step rnd s e s' -> reachable rnd s'.

(** ** Predicates of the statements *)

Definition in_grid (c : Cell) : Prop :=
  0 <= x c < GRID_SIZE /\ 0 <= y c < GRID_SIZE.

Definition outside_grid (c : Cell) : Prop :=
  x c < 0 \/ x c >= GRID_SIZE \/ y c < 0 \/ y c >= GRID_SIZE.

(** Two vectors are opposite when their sum is the zero vector. *)
Definition opposite (d e : Cell) : Prop :=
  x d + x e = 0 /\ y d + y e = 0.

(** The candidate of iteration [k] of a call that starts at [pos]. *)
Definition draw (rnd : nat -> Z) (pos k : nat) : Cell :=
  candidate rnd (pos + 2 * k).

(** Every draw is a value of [Math.floor(Math.random() * GRID_SIZE)]. *)
Definition in_range (rnd : nat -> Z) : Prop :=
  forall i, 0 <= rnd i < GRID_SIZE.

(** The cells of the grid, row by row. *)
Definition all_cells : list Cell :=
  map (fun n => {| x := Z.of_nat n / GRID_SIZE; y := Z.of_nat n mod GRID_SIZE |})
      (seq 0 256).

(** A random source that always draws [v]. *)
Definition always (v : Z) : nat -> Z := fun _ => v.

(** A source that draws the coordinates of [c] at every iteration of a
    call that starts at [pos]. *)
Definition aimed_at (c : Cell) (pos : nat) : nat -> Z :=
  fun i => if Nat.even (i + pos) then x c else y c.

(** A source whose first candidate is (9,8), the cell in front of the
    initial snake, and whose later candidates are (0,0). *)
Definition feeding_source : nat -> Z := fun i => nth i [9; 8] 0.

(** ** States of the examples *)

(** The initial state when the first candidate is (0,0). *)
Definition corner_food_state : GameState :=
  mkState INITIAL_SNAKE INITIAL_DIRECTION {| x := 0; y := 0 |} 0 false 0.

(** The initial state when the first candidate is (9,8). *)
Definition feeding_state : GameState :=
  mkState INITIAL_SNAKE INITIAL_DIRECTION {| x := 9; y := 8 |} 0 false 0.

(** [feeding_state] one tick later: the snake has eaten. *)
Definition fed_state : GameState :=
  mkState
    [ {| x := 9; y := 8 |}; {| x := 8; y := 8 |};
      {| x := 7; y := 8 |}; {| x := 6; y := 8 |} ]
    INITIAL_DIRECTION {| x := 0; y := 0 |} 1 false 0.

(** A snake of four cells in a square, heading for its own tail. *)
Definition tail_chaser : GameState :=
  mkState
    [ {| x := 8; y := 8 |}; {| x := 8; y := 9 |};
      {| x := 7; y := 9 |}; {| x := 7; y := 8 |} ]
    {| x := -1; y := 0 |} {| x := 0; y := 0 |} 1 false 0.

(** The head at (15,8), on the right border, moving right. *)
Definition at_wall : GameState :=
  mkState
    [ {| x := 15; y := 8 |}; {| x := 14; y := 8 |}; {| x := 13; y := 8 |} ]
    {| x := 1; y := 0 |} {| x := 0; y := 0 |} 0 false 0.

(** [at_wall] after its crash. *)
Definition finished : GameState := setGameOver true at_wall.

(** [corner_food_state] one tick later. *)
Definition moved_state : GameState :=
  mkState
    [ {| x := 9; y := 8 |}; {| x := 8; y := 8 |}; {| x := 7; y := 8 |} ]
    INITIAL_DIRECTION {| x := 0; y := 0 |} 0 false 0.

(** [moved_state] after the keys ArrowUp and ArrowLeft. *)
Definition turned_back : GameState :=
  setDirection {| x := -1; y := 0 |} moved_state.

(** ** The canvas effect *)

Definition CELL_SIZE : Z := 24.

Module COLORS.
Definition bg : string := "#FFFFFF".
Definition grid : string := "#F8F9FA".
Definition snake : string := "#4CAF50".
Definition head : string := "#388E3C".
Definition food : string := "#F44336".
Definition text : string := "#282c34".
End COLORS.

(** The calls made on the 2d context; an assignment to [strokeStyle],
    [lineWidth] or [fillStyle] is a call as well. *)
Inductive CanvasOp : Type :=
| clearRect (x0 y0 w h : Z)
| strokeStyle (c : string)
| lineWidth (w : Z)
| beginPath
| moveTo (x0 y0 : Z)
| lineTo (x0 y0 : Z)
| stroke
| fillStyle (c : string)
| fillRect (x0 y0 w h : Z).

(** The body of [for (let i = 0; i <= GRID_SIZE; i++)]. *)
Definition gridLines (i : Z) : list CanvasOp :=
  [ beginPath;
    moveTo (i * CELL_SIZE) 0;
    lineTo (i * CELL_SIZE) (GRID_SIZE * CELL_SIZE);
    stroke;
    beginPath;
    moveTo 0 (i * CELL_SIZE);
    lineTo (GRID_SIZE * CELL_SIZE) (i * CELL_SIZE);
    stroke ].

(** The callback of [snake.forEach((segment, idx) => ...)]. *)
Definition drawSegment (segment : Cell) (idx : nat) : list CanvasOp :=
  [ fillStyle (if Nat.eqb idx 0 then COLORS.head else COLORS.snake);
    fillRect (x segment * CELL_SIZE) (y segment * CELL_SIZE)
             CELL_SIZE CELL_SIZE ].

(** [arr.forEach(f)] from index [idx] on, the calls of [f] in order. *)
Fixpoint forEach (f : Cell -> nat -> list CanvasOp) (arr : list Cell)
    (idx : nat) : list CanvasOp :=
  match arr with
  | [] => []
  | segment :: arr' => f segment idx ++ forEach f arr' (S idx)
  end.

(** The effect that draws grid, food and snake, as the calls it makes. *)
Definition drawBoard (s : GameState) : list CanvasOp :=
  [ clearRect 0 0 (GRID_SIZE * CELL_SIZE) (GRID_SIZE * CELL_SIZE);
    strokeStyle COLORS.grid;
    lineWidth 1 ]
  ++ flat_map gridLines (map Z.of_nat (seq 0 (S (Z.to_nat GRID_SIZE))))
  ++ [ fillStyle COLORS.food;
       fillRect (x (food s) * CELL_SIZE) (y (food s) * CELL_SIZE)
                CELL_SIZE CELL_SIZE ]
  ++ forEach drawSegment (snake s) 0.

(** A rectangle: left, top, width, height. *)
Definition Rect : Type := (Z * Z * Z * Z)%type.

(** The rectangles that a sequence of calls fills, in order, each with the
    fill style in force at its [fillRect]. *)
Fixpoint fills (style : string) (ops : list CanvasOp)
    : list (string * Rect) :=
  match ops with
  | [] => []
  | fillStyle c :: ops' => fills c ops'
  | fillRect x0 y0 w h :: ops' => (style, (x0, y0, w, h)) :: fills style ops'
  | _ :: ops' => fills style ops'
  end.

(** The fill style of a fresh 2d context. *)
Definition default_fillStyle : string := "#000000".

(** The square of the canvas that shows cell [c]. *)
Definition cellRect (c : Cell) : Rect :=
  (x c * CELL_SIZE, y c * CELL_SIZE, CELL_SIZE, CELL_SIZE).

(** Rectangle [r] contains the square of cell [c]. *)
Definition covers (r : Rect) (c : Cell) : bool :=
  let '(x0, y0, w, h) := r in
  (x0 <=? x c * CELL_SIZE) && (x c * CELL_SIZE + CELL_SIZE <=? x0 + w) &&
  (y0 <=? y c * CELL_SIZE) && (y c * CELL_SIZE + CELL_SIZE <=? y0 + h).

(** The colour a cell ends up with: that of the last fill that covers it,
    [None] when no fill does. *)
Fixpoint cellColour (fs : list (string * Rect)) (c : Cell) : option string :=
  match fs with
  | [] => None
  | (style, r) :: fs' =>
      match cellColour fs' c with
      | Some later => Some later
      | None => if covers r c then Some style else None
      end
  end.

(** Rectangle [r] lies on the canvas. *)
Definition on_canvas (r : Rect) : Prop :=
  let '(x0, y0, w, h) := r in
  0 <= x0 /\ x0 + w <= GRID_SIZE * CELL_SIZE /\
  0 <= y0 /\ y0 + h <= GRID_SIZE * CELL_SIZE.

(** ** Further predicates *)

(** The keys the handler knows. *)
Definition mapped_keys : list string :=
  [ "ArrowUp"; "w"; "W"; "ArrowDown"; "s"; "S";
    "ArrowLeft"; "a"; "A"; "ArrowRight"; "d"; "D" ].

(** The four directions up, down, left, right. *)
Definition unit_direction (d : Cell) : Prop :=
  d = {| x := 0; y := -1 |} \/ d = {| x := 0; y := 1 |} \/
  d = {| x := -1; y := 0 |} \/ d = {| x := 1; y := 0 |}.

(** Neighbours on the grid: one step apart along one axis. *)
Definition adjacent (a b : Cell) : Prop :=
  Z.abs (x a - x b) + Z.abs (y a - y b) = 1.

(** Each cell is a neighbour of the next one. *)
Fixpoint chain (l : list Cell) : Prop :=
  match l with
  | a :: (b :: _) as l' => adjacent a b /\ chain l'
  | _ => True
  end.

(** The snake on every cell of the grid. *)
Definition full_board : GameState :=
  mkState all_cells {| x := 1; y := 0 |} {| x := 0; y := 0 |} 253 false 0.

(** The snake on every cell but (0,0), where the food is, its head at
    (0,1) and moving up. *)
Definition last_bite : GameState :=
  mkState (tl all_cells) {| x := 0; y := -1 |} {| x := 0; y := 0 |} 252 false 0.

(** * Lemmas *)

Section Cells.

Lemma same_cell_spec (c seg : Cell) : same_cell c seg = true <-> seg = c.
Proof.
  unfold same_cell. rewrite andb_true_iff, !Z.eqb_eq.
  destruct c as [cx cy], seg as [sx sy]; simpl. split.
  - intros [-> ->]. reflexivity.
  - intros E. inversion E. split; reflexivity.
Qed.

Lemma some_same_In (c : Cell) (arr : list Cell) :
  some_same c arr = true <-> In c arr.
Proof.
  unfold some_same. rewrite existsb_exists. split.
  - intros [seg [Hin Heq]]. apply same_cell_spec in Heq. subst seg. exact Hin.
  - intros Hin. exists c. split; [exact Hin | apply same_cell_spec; reflexivity].
Qed.

Lemma some_same_notIn (c : Cell) (arr : list Cell) :
  some_same c arr = false <-> ~ In c arr.
Proof.
  rewrite <- some_same_In. destruct (some_same c arr); split; intro H;
    try reflexivity; try discriminate; congruence.
Qed.

Lemma collides_spec (c : Cell) (arr : list Cell) :
  collides c arr = true <-> outside_grid c \/ In c arr.
Proof.
  unfold collides, outside_grid.
  rewrite !orb_true_iff, some_same_In, !Z.ltb_lt, !Z.geb_le.
  intuition lia.
Qed.

Lemma collides_false (c : Cell) (arr : list Cell) :
  collides c arr = false -> in_grid c /\ ~ In c arr.
Proof.
  unfold collides, in_grid. rewrite !orb_false_iff, some_same_notIn.
  rewrite !Z.ltb_ge, !Z.geb_leb, !Z.leb_gt. intuition lia.
Qed.

Lemma all_cells_complete (c : Cell) : in_grid c -> In c all_cells.
Proof.
  destruct c as [cx cy]. unfold in_grid, all_cells, GRID_SIZE. cbn [x y].
  intros [Hx Hy]. apply in_map_iff.
  exists (Z.to_nat (16 * cx + cy)). split.
  - rewrite Z2Nat.id by lia. f_equal.
    + symmetry. apply Z.div_unique with (r := cy); lia.
    + symmetry. apply Z.mod_unique with (q := cx); lia.
  - apply in_seq. lia.
Qed.

End Cells.

Section RemoveLast.

Context {A : Type}.

Lemma removelast_length (a : A) (l : list A) :
  List.length (removelast (a :: l)) = List.length l.
Proof.
  revert a. induction l as [|b l IH]; intros a; [reflexivity|].
  change (removelast (a :: b :: l)) with (a :: removelast (b :: l)).
  cbn [List.length]. rewrite IH. reflexivity.
Qed.

Lemma removelast_In (c : A) (l : list A) : In c (removelast l) -> In c l.
Proof.
  induction l as [|a l IH]; [intros []|].
  destruct l as [|b l]; [intros []|].
  change (removelast (a :: b :: l)) with (a :: removelast (b :: l)).
  intros [->|H]; [left; reflexivity | right; apply IH, H].
Qed.

Lemma removelast_NoDup (l : list A) : NoDup l -> NoDup (removelast l).
Proof.
  induction l as [|a l IH]; intros H; [constructor|].
  destruct l as [|b l]; [constructor|].
  change (removelast (a :: b :: l)) with (a :: removelast (b :: l)).
  inversion H as [|? ? Hnotin Hnd]; subst. constructor.
  - intros Hin. apply Hnotin, removelast_In, Hin.
  - apply IH, Hnd.
Qed.

Lemma last_In (l : list A) (d : A) : l <> [] -> In (last l d) l.
Proof.
  induction l as [|a l IH]; intros Hne; [congruence|].
  destruct l as [|b l]; [left; reflexivity|].
  change (last (a :: b :: l) d) with (last (b :: l) d).
  right. apply IH. discriminate.
Qed.

End RemoveLast.

Section GenerateFood.

Variable rnd : nat -> Z.
Variable snakeArr : list Cell.

Lemma draw_zero (pos : nat) : draw rnd pos 0 = candidate rnd pos.
Proof. unfold draw. f_equal. lia. Qed.

Lemma draw_succ (pos k : nat) : draw rnd pos (S k) = draw rnd (S (S pos)) k.
Proof. unfold draw. f_equal. lia. Qed.

(** What the loop returns is the first free candidate: every earlier one
    is on the snake, and two draws were taken per iteration. *)
Lemma generateFood_first (fuel pos : nat) (c : Cell) (pos' : nat) :
  generateFood fuel rnd pos snakeArr = Some (c, pos') ->
  exists k, (k < fuel)%nat /\ c = draw rnd pos k /\ pos' = (pos + 2 * S k)%nat /\
            ~ In c snakeArr /\
            forall j, (j < k)%nat -> In (draw rnd pos j) snakeArr.
Proof.
  revert pos. induction fuel as [|fuel IH]; intros pos H; [discriminate|].
  simpl in H. destruct (some_same (candidate rnd pos) snakeArr) eqn:E; simpl in H.
  - apply IH in H. destruct H as (k & Hk & Hc & Hp & Hfree & Hbefore).
    exists (S k). rewrite draw_succ. repeat split; try assumption; try lia.
    intros [|j] Hj.
    + rewrite draw_zero. apply some_same_In, E.
    + rewrite draw_succ. apply Hbefore. lia.
  - inversion H; subst. exists 0%nat. rewrite draw_zero.
    repeat split; try lia.
    apply some_same_notIn, E.
Qed.

Lemma generateFood_sound (fuel pos : nat) (c : Cell) (pos' : nat) :
  generateFood fuel rnd pos snakeArr = Some (c, pos') -> ~ In c snakeArr.
Proof.
  intros H. apply generateFood_first in H.
  destruct H as (k & _ & _ & _ & Hfree & _). exact Hfree.
Qed.

(** More fuel does not change a result. *)
Lemma generateFood_mono (fuel fuel' pos : nat) (r : Cell * nat) :
  (fuel <= fuel')%nat ->
  generateFood fuel rnd pos snakeArr = Some r ->
  generateFood fuel' rnd pos snakeArr = Some r.
Proof.
  revert fuel' pos. induction fuel as [|fuel IH]; intros fuel' pos Hle H;
    [discriminate|].
  destruct fuel' as [|fuel']; [lia|].
  simpl in *. destruct (negb (some_same (candidate rnd pos) snakeArr)).
  - exact H.
  - apply IH; [lia | exact H].
Qed.

(** If iteration [k] draws a free cell, [k + 1] iterations are enough. *)
Lemma generateFood_returns (k pos : nat) :
  ~ In (draw rnd pos k) snakeArr ->
  exists c pos', generateFood (S k) rnd pos snakeArr = Some (c, pos').
Proof.
  revert pos. induction k as [|k IH]; intros pos Hfree.
  - rewrite draw_zero in Hfree. apply some_same_notIn in Hfree.
    simpl. rewrite Hfree. simpl. eauto.
  - rewrite draw_succ in Hfree. apply IH in Hfree.
    destruct Hfree as (c & pos' & H).
    change (generateFood (S (S k)) rnd pos snakeArr) with
      (if negb (some_same (candidate rnd pos) snakeArr)
       then Some (candidate rnd pos, S (S pos))
       else generateFood (S k) rnd (S (S pos)) snakeArr).
    destruct (negb (some_same (candidate rnd pos) snakeArr)); eauto.
Qed.

(** On a snake that covers the grid, no number of iterations is enough. *)
Lemma generateFood_covered (fuel pos : nat) :
  in_range rnd ->
  (forall c, in_grid c -> In c snakeArr) ->
  generateFood fuel rnd pos snakeArr = None.
Proof.
  intros Hrange Hcover. revert pos.
  induction fuel as [|fuel IH]; intros pos; [reflexivity|].
  simpl. assert (Hin : In (candidate rnd pos) snakeArr).
  { apply Hcover. split; simpl; apply Hrange. }
  apply some_same_In in Hin. rewrite Hin. simpl. apply IH.
Qed.

End GenerateFood.

Section Tick.

Variable rnd : nat -> Z.

(** The four ways in which the effect returns. *)
Lemma tick_Returns (fuel pos : nat) (s s' : GameState) (pos' : nat)
    (r : TransitionResult) :
  tick fuel rnd pos s = Returns s' pos' r ->
  (gameOver s = true /\ s' = s /\ pos' = pos /\ r = Noop) \/
  (gameOver s = false /\
   exists head rest, snake s = head :: rest /\
     let nextHead := nextHeadOf head (direction s) in
     (collides nextHead (snake s) = true /\
      s' = setGameOver true s /\ pos' = pos /\ r = Crashed) \/
     (collides nextHead (snake s) = false /\ eats nextHead (food s) = true /\
      (exists newFood,
         generateFood fuel rnd pos (nextHead :: snake s) = Some (newFood, pos') /\
         s' = setSnake (nextHead :: snake s)
                (setFood newFood (setScore (fun score => score + 1) s))) /\
      r = Ate) \/
     (collides nextHead (snake s) = false /\ eats nextHead (food s) = false /\
      s' = setSnake (removelast (nextHead :: snake s)) s /\
      pos' = pos /\ r = Moved)).
Proof.
  unfold tick. destruct (gameOver s) eqn:Hover.
  - intros H. inversion H; subst. left. repeat split.
  - destruct (snake s) as [|head rest] eqn:Hsnake; [discriminate|].
    intros H. right. split; [reflexivity|]. exists head, rest.
    split; [reflexivity|]. cbv zeta.
    destruct (collides (nextHeadOf head (direction s)) (head :: rest)) eqn:Hc.
    + inversion H; subst. left. repeat split.
    + right. destruct (eats (nextHeadOf head (direction s)) (food s)) eqn:He.
      * left.
        destruct (generateFood fuel rnd pos
                    (nextHeadOf head (direction s) :: head :: rest))
          as [[newFood p]|] eqn:Hg; [|discriminate].
        inversion H; subst. repeat split. exists newFood. split; reflexivity.
      * right. inversion H; subst. repeat split.
Qed.

Lemma eats_spec (c f : Cell) : eats c f = true <-> c = f.
Proof. apply (same_cell_spec f c). Qed.

End Tick.

(** * The moveTick effect: collision, growth, frame *)

Section TickClaims.

Variable rnd : nat -> Z.

(** A collision ends the game and touches nothing else. *)
Lemma tick_collides (fuel pos : nat) (s : GameState) (head : Cell)
    (rest : list Cell) :
  gameOver s = false ->
  snake s = head :: rest ->
  collides (nextHeadOf head (direction s)) (snake s) = true ->
  tick fuel rnd pos s = Returns (setGameOver true s) pos Crashed.
Proof.
  intros Hover Hsnake Hc. unfold tick. rewrite Hover.
  rewrite Hsnake in *. rewrite Hc. reflexivity.
Qed.

(** Without a collision the effect does not report a crash. *)
Lemma tick_no_collision (fuel pos : nat) (s : GameState) (head : Cell)
    (rest : list Cell) (s' : GameState) (pos' : nat) :
  gameOver s = false ->
  snake s = head :: rest ->
  collides (nextHeadOf head (direction s)) (snake s) = false ->
  tick fuel rnd pos s <> Returns s' pos' Crashed.
Proof.
  intros Hover Hsnake Hc. unfold tick. rewrite Hover.
  rewrite Hsnake in *. rewrite Hc.
  destruct (eats _ _); [|discriminate].
  destruct (generateFood _ _ _ _) as [[f p]|]; discriminate.
Qed.

(** The effect returns whenever the food loop does: it always does on a
    move that does not eat, and on one that eats as soon as some iteration
    draws a cell off the grown snake. *)
Lemma tick_returns (pos k : nat) (s : GameState) (head : Cell)
    (rest : list Cell) :
  snake s = head :: rest ->
  ~ In (draw rnd pos k) (nextHeadOf head (direction s) :: snake s) ->
  exists s' pos' r, tick (S k) rnd pos s = Returns s' pos' r.
Proof.
  intros Hsnake Hfree. unfold tick. destruct (gameOver s); [eauto|].
  rewrite Hsnake in *.
  destruct (collides _ _); [eauto|].
  destruct (eats _ _); [|eauto].
  destruct (generateFood_returns rnd _ k pos Hfree) as (c & pos' & Hg).
  rewrite Hg. eauto.
Qed.

(** C1. In a running game the moveTick effect ends in a crash exactly when
    the next head (head plus direction) is outside the 16 x 16 grid or is one
    of the cells of the current snake; the tail cell counts, so a move onto
    the current tail is a crash. *)
Theorem tick_crashed_iff (fuel pos : nat) (s : GameState) (head : Cell)
    (rest : list Cell) :
  gameOver s = false ->
  snake s = head :: rest ->
  let nextHead := nextHeadOf head (direction s) in
  ((exists s' pos', tick fuel rnd pos s = Returns s' pos' Crashed) <->
   (outside_grid nextHead \/ In nextHead (snake s))) /\
  (nextHead = last (snake s) head ->
   tick fuel rnd pos s = Returns (setGameOver true s) pos Crashed).
Proof.
  intros Hover Hsnake nextHead. split; [split|].
  - intros (s' & pos' & H).
    destruct (collides nextHead (snake s)) eqn:Hc.
    + apply collides_spec, Hc.
    + exfalso. exact (tick_no_collision fuel pos s head rest s' pos'
                        Hover Hsnake Hc H).
  - intros H. apply collides_spec in H.
    exists (setGameOver true s), pos.
    exact (tick_collides fuel pos s head rest Hover Hsnake H).
  - intros Htail. apply (tick_collides fuel pos s head rest Hover Hsnake).
    apply collides_spec. right. fold nextHead. rewrite Htail, Hsnake.
    apply last_In. discriminate.
Qed.

(** C3. In a running game, a tick that eats prepends the next head to the
    snake and removes nothing, so the length grows by exactly 1, the score
    grows by exactly 1, and the food is the result of [generateFood] on the
    grown snake; a tick that only moves leaves length and score as they
    were. *)
Theorem growth_law (fuel pos : nat) (s s' : GameState) (pos' : nat)
    (r : TransitionResult) :
  gameOver s = false ->
  tick fuel rnd pos s = Returns s' pos' r ->
  (r = Ate ->
   (exists head rest,
      snake s = head :: rest /\
      snake s' = nextHeadOf head (direction s) :: snake s) /\
   List.length (snake s') = S (List.length (snake s)) /\
   score s' = score s + 1 /\
   generateFood fuel rnd pos (snake s') = Some (food s', pos') /\
   ~ In (food s') (snake s')) /\
  (r = Moved ->
   List.length (snake s') = List.length (snake s) /\
   score s' = score s).
Proof.
  intros Hover H. apply tick_Returns in H.
  destruct H as [(Ht & _) | (_ & head & rest & Hsnake & H)]; [congruence|].
  cbv zeta in H.
  destruct H as [(_ & _ & _ & ->) | [(_ & _ & (nf & Hg & ->) & ->)
                                    | (_ & _ & -> & _ & ->)]].
  - split; discriminate.
  - split; [intros _ | discriminate]. cbn.
    repeat split; try reflexivity.
    + exists head, rest. split; [exact Hsnake | reflexivity].
    + exact Hg.
    + exact (generateFood_sound rnd _ fuel pos nf pos' Hg).
  - split; [discriminate | intros _]. cbn [snake score setSnake].
    split; [apply removelast_length | reflexivity].
Qed.

(** C6. When the tick of a running game finds the next head outside the
    grid or on the snake, the result is a crash, the game is over, and snake,
    food and score (and direction) are what they were before the tick.  In
    particular, on the 16 x 16 grid, a head at (15,8) moving in direction
    (1,0) crashes with snake, food and score unchanged. *)
Theorem crash_keeps_state (fuel pos : nat) (s : GameState) (head : Cell)
    (rest : list Cell) :
  gameOver s = false ->
  snake s = head :: rest ->
  let nextHead := nextHeadOf head (direction s) in
  let crashed :=
    exists s', tick fuel rnd pos s = Returns s' pos Crashed /\
               gameOver s' = true /\ snake s' = snake s /\
               food s' = food s /\ score s' = score s /\
               direction s' = direction s in
  (outside_grid nextHead \/ In nextHead (snake s) -> crashed) /\
  (GRID_SIZE = 16 /\
   (head = {| x := 15; y := 8 |} -> direction s = {| x := 1; y := 0 |} ->
    crashed)).
Proof.
  intros Hover Hsnake nextHead crashed.
  assert (Hgen : outside_grid nextHead \/ In nextHead (snake s) -> crashed).
  { intros H. apply collides_spec in H. exists (setGameOver true s).
    split; [exact (tick_collides fuel pos s head rest Hover Hsnake H)|].
    repeat split. }
  split; [exact Hgen|]. split; [reflexivity|].
  intros Hhead Hdir. apply Hgen. left. unfold outside_grid, nextHead.
  rewrite Hhead, Hdir. unfold GRID_SIZE. simpl. lia.
Qed.

(** C7. Once the game is over, the tick does nothing (result [Noop], state
    unchanged) and a key press, whatever the key, leaves the state unchanged;
    a restart does change it, since it clears [gameOver]. *)
Theorem gameOver_frozen (fuel pos : nat) (s : GameState) (key : string) :
  gameOver s = true ->
  tick fuel rnd pos s = Returns s pos Noop /\
  handleKeyDown key s = s /\
  (forall s' pos', handleRestart fuel rnd pos s = Some (s', pos') ->
                   gameOver s' = false /\ s' <> s).
Proof.
  intros Hover. unfold tick, handleKeyDown. rewrite Hover.
  repeat split.
  - unfold handleRestart in H.
    destruct (generateFood _ _ _ _) as [[f p]|]; [|discriminate].
    inversion H; subst. reflexivity.
  - unfold handleRestart in H.
    destruct (generateFood _ _ _ _) as [[f p]|]; [|discriminate].
    inversion H as [[E P]]. intros Heq.
    apply (f_equal gameOver) in Heq. change (false = gameOver s) in Heq.
    congruence.
Qed.

End TickClaims.

(** * What the operations preserve *)

Section Preservation.

Variable rnd : nat -> Z.

Lemma handleKeyDown_frame (key : string) (s : GameState) :
  snake (handleKeyDown key s) = snake s /\
  food (handleKeyDown key s) = food s /\
  score (handleKeyDown key s) = score s /\
  gameOver (handleKeyDown key s) = gameOver s.
Proof.
  unfold handleKeyDown. destruct (gameOver s) eqn:Hover; [auto|].
  destruct (keyDir key) as [d|]; [|auto].
  destruct (negb (reverses d (direction s))); auto.
Qed.

(** The guard of the handler looks at the direction stored last. *)
Lemma handleKeyDown_direction (key : string) (s : GameState) (d : Cell) :
  gameOver s = false ->
  keyDir key = Some d ->
  direction (handleKeyDown key s) =
    if reverses d (direction s) then direction s else d.
Proof.
  intros Hover Hkey. unfold handleKeyDown. rewrite Hover, Hkey.
  destruct (reverses d (direction s)); reflexivity.
Qed.

Lemma handleRestart_state (fuel pos : nat) (s s' : GameState) (pos' : nat) :
  handleRestart fuel rnd pos s = Some (s', pos') ->
  generateFood fuel rnd pos INITIAL_SNAKE = Some (food s', pos') /\
  s' = mkState INITIAL_SNAKE INITIAL_DIRECTION (food s') 0 false 0.
Proof.
  unfold handleRestart.
  destruct (generateFood fuel rnd pos INITIAL_SNAKE) as [[f p]|];
    [|discriminate].
  intros H. inversion H; subst. split; reflexivity.
Qed.

Lemma initialState_state (fuel pos : nat) (s : GameState) (pos' : nat) :
  initialState fuel rnd pos = Some (s, pos') ->
  generateFood fuel rnd pos INITIAL_SNAKE = Some (food s, pos') /\
  s = mkState INITIAL_SNAKE INITIAL_DIRECTION (food s) 0 false 0.
Proof.
  unfold initialState.
  destruct (generateFood fuel rnd pos INITIAL_SNAKE) as [[f p]|];
    [|discriminate].
  intros H. inversion H; subst. split; reflexivity.
Qed.

Lemma INITIAL_SNAKE_NoDup : NoDup INITIAL_SNAKE.
Proof.
  unfold INITIAL_SNAKE. repeat constructor; simpl; intuition discriminate.
Qed.

Lemma tick_NoDup (fuel pos : nat) (s s' : GameState) (pos' : nat)
    (r : TransitionResult) :
  NoDup (snake s) ->
  tick fuel rnd pos s = Returns s' pos' r ->
  NoDup (snake s').
Proof.
  intros Hnd H. apply tick_Returns in H.
  destruct H as [(_ & -> & _) | (_ & head & rest & Hsnake & H)]; [exact Hnd|].
  cbv zeta in H.
  destruct H as [(_ & -> & _) | [(Hc & _ & (nf & _ & ->) & _)
                                | (Hc & _ & -> & _)]].
  - exact Hnd.
  - apply collides_false in Hc. cbn [snake setSnake].
    constructor; [apply Hc | exact Hnd].
  - apply collides_false in Hc. cbn [snake setSnake].
    apply removelast_NoDup. constructor; [apply Hc | exact Hnd].
Qed.

Lemma tick_food_free (fuel pos : nat) (s s' : GameState) (pos' : nat)
    (r : TransitionResult) :
  ~ In (food s) (snake s) ->
  tick fuel rnd pos s = Returns s' pos' r ->
  ~ In (food s') (snake s').
Proof.
  intros Hfree H. apply tick_Returns in H.
  destruct H as [(_ & -> & _) | (_ & head & rest & Hsnake & H)];
    [exact Hfree|].
  cbv zeta in H.
  destruct H as [(_ & -> & _) | [(_ & _ & (nf & Hg & ->) & _)
                                | (_ & He & -> & _)]].
  - exact Hfree.
  - cbn [snake food setSnake setFood].
    exact (generateFood_sound rnd _ fuel pos nf pos' Hg).
  - cbn [snake food setSnake]. intros Hin. apply removelast_In in Hin.
    destruct Hin as [Heq | Hin]; [|exact (Hfree Hin)].
    apply eats_spec in Heq. congruence.
Qed.

Lemma tick_score (fuel pos : nat) (s s' : GameState) (pos' : nat)
    (r : TransitionResult) :
  score s = Z.of_nat (List.length (snake s)) - 3 ->
  tick fuel rnd pos s = Returns s' pos' r ->
  score s' = Z.of_nat (List.length (snake s')) - 3.
Proof.
  intros Hscore H. apply tick_Returns in H.
  destruct H as [(_ & -> & _) | (_ & head & rest & Hsnake & H)];
    [exact Hscore|].
  cbv zeta in H.
  destruct H as [(_ & -> & _) | [(_ & _ & (nf & _ & ->) & _)
                                | (_ & _ & -> & _)]].
  - exact Hscore.
  - cbn [snake score setSnake setFood setScore List.length]. lia.
  - cbn [snake score setSnake]. rewrite removelast_length. exact Hscore.
Qed.

(** An invariant of the component: true of the initial state and kept by
    every event. *)
Lemma reachable_invariant (P : GameState -> Prop) :
  (forall f, ~ In f INITIAL_SNAKE ->
             P (mkState INITIAL_SNAKE INITIAL_DIRECTION f 0 false 0)) ->
  (forall s v, P s -> P (setDirection v s)) ->
  (forall s g, P s -> P (setMoveTick g s)) ->
  (forall fuel pos s s' pos' r,
     P s -> tick fuel rnd pos s = Returns s' pos' r -> P s') ->
  forall s, reachable rnd s -> P s.
Proof.
  intros Hinit Hdir Hmt Htick s Hreach.
  induction Hreach as [fuel pos s pos' H | s e s' Hreach IH Hstep].
  - apply initialState_state in H. destruct H as [Hg ->].
    apply Hinit. exact (generateFood_sound rnd _ fuel pos _ pos' Hg).
  - destruct Hstep as [key s | s | fuel pos s s' pos' r H
                      | fuel pos s s' pos' H].
    + unfold handleKeyDown. destruct (gameOver s); [exact IH|].
      destruct (keyDir key) as [d|]; [|exact IH].
      destruct (negb (reverses d (direction s))); [apply Hdir|]; exact IH.
    + apply Hmt, IH.
    + exact (Htick fuel pos s s' pos' r IH H).
    + apply handleRestart_state in H. destruct H as [Hg ->].
      apply Hinit. exact (generateFood_sound rnd _ fuel pos _ pos' Hg).
Qed.

End Preservation.

(** * Invariants of the reachable states *)

Section Invariants.

Variable rnd : nat -> Z.

(** C5. In every state reachable from the initial one by key presses,
    ticks and restarts, no two cells of the snake are equal. *)
Theorem snake_NoDup (s : GameState) :
  reachable rnd s -> NoDup (snake s).
Proof.
  apply (reachable_invariant rnd (fun s => NoDup (snake s))).
  - intros f _. exact INITIAL_SNAKE_NoDup.
  - intros s0 v H. exact H.
  - intros s0 g H. exact H.
  - intros fuel pos s0 s' pos' r. apply tick_NoDup.
Qed.

(** C10. In every reachable state the score is the length of the snake
    minus 3, the number of cells grown beyond the initial snake. *)
Theorem score_is_growth (s : GameState) :
  reachable rnd s -> score s = Z.of_nat (List.length (snake s)) - 3.
Proof.
  apply (reachable_invariant rnd
           (fun s => score s = Z.of_nat (List.length (snake s)) - 3)).
  - intros f _. reflexivity.
  - intros s0 v H. exact H.
  - intros s0 g H. exact H.
  - intros fuel pos s0 s' pos' r. apply tick_score.
Qed.

(** C4. [generateFood] returns a cell that is not on the snake it was
    given: it returns as soon as an iteration draws a free cell, and whatever
    it returns is free.  So the food is off the snake in every reachable
    state, after a restart from any state, and after a tick from any state
    in which it was off the snake. *)
Theorem food_off_snake :
  (forall fuel pos snakeArr c pos',
     generateFood fuel rnd pos snakeArr = Some (c, pos') ->
     ~ In c snakeArr) /\
  (forall pos snakeArr k,
     ~ In (draw rnd pos k) snakeArr ->
     exists c pos', generateFood (S k) rnd pos snakeArr = Some (c, pos') /\
                    ~ In c snakeArr) /\
  (forall s, reachable rnd s -> ~ In (food s) (snake s)) /\
  (forall fuel pos s s' pos',
     handleRestart fuel rnd pos s = Some (s', pos') ->
     ~ In (food s') (snake s')) /\
  (forall fuel pos s s' pos' r,
     ~ In (food s) (snake s) ->
     tick fuel rnd pos s = Returns s' pos' r ->
     ~ In (food s') (snake s')).
Proof.
  split; [|split; [|split; [|split]]].
  - intros fuel pos snakeArr c pos'. apply generateFood_sound.
  - intros pos snakeArr k Hfree.
    destruct (generateFood_returns rnd snakeArr k pos Hfree) as (c & pos' & H).
    exists c, pos'. split; [exact H|].
    exact (generateFood_sound rnd snakeArr _ pos c pos' H).
  - apply (reachable_invariant rnd (fun s => ~ In (food s) (snake s))).
    + intros f Hf. exact Hf.
    + intros s0 v H. exact H.
    + intros s0 g H. exact H.
    + intros fuel pos s0 s' pos' r. apply tick_food_free.
  - intros fuel pos s s' pos' H. apply handleRestart_state in H.
    destruct H as [Hg ->]. cbn [snake food].
    exact (generateFood_sound rnd _ fuel pos _ pos' Hg).
  - intros fuel pos s s' pos' r. apply tick_food_free.
Qed.

(** C8. A restart, from a running game or a finished one, gives a running
    game with score 0, the snake (8,8),(7,8),(6,8), direction (1,0), and a
    food cell that [generateFood] has placed off that snake.  It returns as
    soon as an iteration of the food loop draws a cell off the initial
    snake. *)
Theorem restart_resets (pos k : nat) (s : GameState) :
  ~ In (draw rnd pos k) INITIAL_SNAKE ->
  (exists s' pos', handleRestart (S k) rnd pos s = Some (s', pos')) /\
  (forall fuel s' pos',
     handleRestart fuel rnd pos s = Some (s', pos') ->
     gameOver s' = false /\
     score s' = 0 /\
     snake s' = [ {| x := 8; y := 8 |}; {| x := 7; y := 8 |};
                  {| x := 6; y := 8 |} ] /\
     direction s' = {| x := 1; y := 0 |} /\
     generateFood fuel rnd pos (snake s') = Some (food s', pos') /\
     ~ In (food s') (snake s')).
Proof.
  intros Hfree. split.
  - destruct (generateFood_returns rnd _ k pos Hfree) as (c & pos' & H).
    unfold handleRestart. rewrite H. eauto.
  - intros fuel s' pos' H. apply handleRestart_state in H.
    destruct H as [Hg ->]. cbn [gameOver score snake direction food].
    repeat split; try reflexivity; try exact Hg.
    exact (generateFood_sound rnd _ fuel pos _ pos' Hg).
Qed.

Lemma aimed_at_candidate (c : Cell) (pos : nat) :
  candidate (aimed_at c pos) pos = c.
Proof.
  unfold candidate, aimed_at.
  replace (pos + pos)%nat with (2 * pos)%nat by lia.
  replace (S pos + pos)%nat with (S (2 * pos)) by lia.
  rewrite Nat.even_succ, Nat.odd_mul, Nat.even_mul. simpl.
  destruct c; reflexivity.
Qed.

(** C9. The loop of [generateFood] returns a free cell as soon as one
    iteration draws one, and on a snake that leaves a cell of the grid free
    there is a random source, with every draw in 0..15, on which it does; on
    a snake that covers the whole grid it returns for no random source and
    no number of iterations. *)
Theorem generateFood_termination (pos : nat) (snakeArr : list Cell) :
  (forall k, ~ In (draw rnd pos k) snakeArr ->
     exists c pos',
       ~ In c snakeArr /\
       forall fuel, (k < fuel)%nat ->
                    generateFood fuel rnd pos snakeArr = Some (c, pos')) /\
  ((exists c, in_grid c /\ ~ In c snakeArr) ->
     exists rnd' fuel c' pos',
       in_range rnd' /\
       generateFood fuel rnd' pos snakeArr = Some (c', pos') /\
       in_grid c' /\ ~ In c' snakeArr) /\
  ((forall c, in_grid c -> In c snakeArr) ->
     in_range rnd ->
     forall fuel, generateFood fuel rnd pos snakeArr = None).
Proof.
  split; [|split].
  - intros k Hfree.
    destruct (generateFood_returns rnd snakeArr k pos Hfree) as (c & pos' & H).
    exists c, pos'. split.
    + exact (generateFood_sound rnd snakeArr _ pos c pos' H).
    + intros fuel Hk. apply (generateFood_mono rnd snakeArr (S k)); [lia|exact H].
  - intros (c & Hgrid & Hfree).
    exists (aimed_at c pos), 1%nat, c, (S (S pos)). split; [|split; [|split]].
    + intros i. unfold aimed_at. destruct (Nat.even (i + pos)); apply Hgrid.
    + simpl. rewrite aimed_at_candidate.
      apply some_same_notIn in Hfree. rewrite Hfree. reflexivity.
    + exact Hgrid.
    + exact Hfree.
  - intros Hcover Hrange fuel. apply generateFood_covered; assumption.
Qed.

End Invariants.

(** * The reversal guard *)

(** C2 fails on the code.  The handler compares a key with the direction
    stored last, and a key press stores its direction at once; so after a
    tick that moved right, ArrowUp (accepted: not the reverse of right)
    followed by ArrowLeft (accepted: not the reverse of up) leaves the
    direction (-1,0) for the next tick, the opposite of the (1,0) of the tick
    before, and that tick runs the head into the neck. *)
Theorem reversal_between_ticks :
  initialState 1 (always 0) 0 = Some (corner_food_state, 2%nat) /\
  direction corner_food_state = {| x := 1; y := 0 |} /\
  tick 1 (always 0) 2 corner_food_state = Returns moved_state 2 Moved /\
  handleKeyDown "ArrowLeft" (handleKeyDown "ArrowUp" moved_state) = turned_back /\
  direction turned_back = {| x := -1; y := 0 |} /\
  opposite (direction turned_back) (direction corner_food_state) /\
  tick 1 (always 0) 2 turned_back =
    Returns (setGameOver true turned_back) 2 Crashed /\
  reachable (always 0) turned_back.
Proof.
  assert (Hinit : initialState 1 (always 0) 0 = Some (corner_food_state, 2%nat))
    by reflexivity.
  assert (Htick : tick 1 (always 0) 2 corner_food_state
                  = Returns moved_state 2 Moved) by reflexivity.
  repeat split; try reflexivity.
  change turned_back with
    (handleKeyDown "ArrowLeft" (handleKeyDown "ArrowUp" moved_state)).
  eapply reach_step; [|apply step_key].
  eapply reach_step; [|apply step_key].
  eapply reach_step; [|exact (step_tick _ _ _ _ _ _ _ Htick)].
  exact (reach_init _ _ _ _ _ Hinit).
Qed.

(** * The statements at concrete states *)

Lemma fed_state_reachable : reachable feeding_source fed_state.
Proof.
  apply (reach_step feeding_source feeding_state MoveTick).
  - apply (reach_init feeding_source 1 0 feeding_state 2). reflexivity.
  - apply (step_tick feeding_source 1 2 feeding_state fed_state 4 Ate).
    reflexivity.
Qed.

Lemma tick_crashed_iff_witness :
  gameOver tail_chaser = false /\
  tick 0 (always 0) 0 tail_chaser = Returns (setGameOver true tail_chaser) 0 Crashed.
Proof.
  split; [reflexivity|].
  destruct (tick_crashed_iff (always 0) 0 0 tail_chaser
              {| x := 8; y := 8 |}
              [ {| x := 8; y := 9 |}; {| x := 7; y := 9 |}; {| x := 7; y := 8 |} ]
              eq_refl eq_refl) as [_ Htail].
  apply Htail. reflexivity.
Defined.

Lemma growth_law_witness :
  gameOver feeding_state = false /\
  gameOver corner_food_state = false /\
  tick 1 feeding_source 2 feeding_state = Returns fed_state 4 Ate /\
  tick 1 (always 0) 2 corner_food_state = Returns moved_state 2 Moved /\
  List.length (snake fed_state) = S (List.length (snake feeding_state)) /\
  score fed_state = score feeding_state + 1 /\
  List.length (snake moved_state) = List.length (snake corner_food_state) /\
  score moved_state = score corner_food_state.
Proof.
  destruct (growth_law feeding_source 1 2 feeding_state fed_state 4 Ate
              eq_refl eq_refl) as [Hate _].
  destruct (growth_law (always 0) 1 2 corner_food_state moved_state 2 Moved
              eq_refl eq_refl) as [_ Hmoved].
  destruct (Hate eq_refl) as (_ & Hlen & Hscore & _).
  destruct (Hmoved eq_refl) as (Hlen' & Hscore').
  repeat split; assumption || reflexivity.
Defined.

Lemma food_off_snake_witness :
  reachable feeding_source fed_state /\
  ~ In (food fed_state) (snake fed_state) /\
  ~ In (draw (always 0) 0 0) INITIAL_SNAKE /\
  (exists c pos', generateFood 1 (always 0) 0 INITIAL_SNAKE = Some (c, pos') /\
                  ~ In c INITIAL_SNAKE).
Proof.
  assert (Hfree : ~ In (draw (always 0) 0 0) INITIAL_SNAKE)
    by (simpl; intuition discriminate).
  split; [exact fed_state_reachable|]. split; [|split; [exact Hfree|]].
  - destruct (food_off_snake feeding_source) as (_ & _ & Hreach & _).
    exact (Hreach fed_state fed_state_reachable).
  - destruct (food_off_snake (always 0)) as (_ & Hret & _).
    exact (Hret 0%nat INITIAL_SNAKE 0%nat Hfree).
Defined.

Lemma snake_NoDup_witness :
  reachable feeding_source fed_state /\ NoDup (snake fed_state).
Proof.
  split; [exact fed_state_reachable|].
  exact (snake_NoDup feeding_source fed_state fed_state_reachable).
Defined.

Lemma crash_keeps_state_witness :
  gameOver at_wall = false /\
  exists s', tick 0 (always 0) 0 at_wall = Returns s' 0 Crashed /\
             gameOver s' = true /\ snake s' = snake at_wall /\
             food s' = food at_wall /\ score s' = score at_wall /\
             direction s' = direction at_wall.
Proof.
  split; [reflexivity|].
  destruct (crash_keeps_state (always 0) 0 0 at_wall {| x := 15; y := 8 |}
              [ {| x := 14; y := 8 |}; {| x := 13; y := 8 |} ]
              eq_refl eq_refl) as (_ & _ & Hwall).
  exact (Hwall eq_refl eq_refl).
Defined.

Lemma gameOver_frozen_witness :
  gameOver finished = true /\
  tick 1 (always 0) 0 finished = Returns finished 0 Noop /\
  handleKeyDown "ArrowUp" finished = finished.
Proof.
  split; [reflexivity|].
  destruct (gameOver_frozen (always 0) 1 0 finished "ArrowUp" eq_refl)
    as (Htick & Hkey & _).
  split; assumption.
Defined.

Lemma restart_resets_witness :
  ~ In (draw (always 0) 0 0) INITIAL_SNAKE /\
  exists s' pos', handleRestart 1 (always 0) 0 finished = Some (s', pos').
Proof.
  assert (Hfree : ~ In (draw (always 0) 0 0) INITIAL_SNAKE)
    by (simpl; intuition discriminate).
  split; [exact Hfree|].
  exact (proj1 (restart_resets (always 0) 0 0 finished Hfree)).
Defined.

Lemma always_zero_in_range : in_range (always 0).
Proof. intros i. unfold always, GRID_SIZE. lia. Qed.

Lemma generateFood_termination_witness :
  ~ In (draw (always 0) 0 0) INITIAL_SNAKE /\
  (exists c pos', ~ In c INITIAL_SNAKE /\
     generateFood 1 (always 0) 0 INITIAL_SNAKE = Some (c, pos')) /\
  (forall c, in_grid c -> In c all_cells) /\
  in_range (always 0) /\
  generateFood 1000 (always 0) 0 all_cells = None.
Proof.
  assert (Hfree0 : ~ In (draw (always 0) 0 0) INITIAL_SNAKE)
    by (simpl; intuition discriminate).
  split; [exact Hfree0|]. split; [|split; [exact all_cells_complete|
                                   split; [exact always_zero_in_range|]]].
  - destruct (generateFood_termination (always 0) 0 INITIAL_SNAKE)
      as (Hret & _).
    destruct (Hret 0%nat Hfree0) as (c & pos' & Hfree & Hfuel).
    exists c, pos'. split; [exact Hfree | apply Hfuel; lia].
  - destruct (generateFood_termination (always 0) 0 all_cells)
      as (_ & _ & Hnone).
    apply Hnone; [exact all_cells_complete | exact always_zero_in_range].
Defined.

Lemma score_is_growth_witness :
  reachable feeding_source fed_state /\
  score fed_state = Z.of_nat (List.length (snake fed_state)) - 3.
Proof.
  split; [exact fed_state_reachable|].
  exact (score_is_growth feeding_source fed_state fed_state_reachable).
Defined.

(** * The key handler *)

Section Keys.

Lemma includes_In (l : list string) (key : string) :
  includes l key = true <-> In key l.
Proof.
  unfold includes. rewrite existsb_exists. split.
  - intros (k & Hin & Heq). apply String.eqb_eq in Heq. subst k. exact Hin.
  - intros Hin. exists key. split; [exact Hin | apply String.eqb_refl].
Qed.

Lemma keyDir_unit (key : string) (d : Cell) :
  keyDir key = Some d -> unit_direction d.
Proof.
  unfold keyDir, unit_direction.
  destruct (includes _ key); [intros H; inversion H; auto|].
  destruct (includes _ key); [intros H; inversion H; auto|].
  destruct (includes _ key); [intros H; inversion H; auto|].
  destruct (includes _ key); [intros H; inversion H; auto 6|discriminate].
Qed.

Lemma keyDir_unmapped (key : string) :
  ~ In key mapped_keys -> keyDir key = None.
Proof.
  intros Hnot. unfold keyDir.
  destruct (includes ["ArrowUp"; "w"; "W"] key) eqn:E1.
  { exfalso. apply Hnot. apply includes_In in E1. unfold mapped_keys.
    simpl in *. intuition. }
  destruct (includes ["ArrowDown"; "s"; "S"] key) eqn:E2.
  { exfalso. apply Hnot. apply includes_In in E2. unfold mapped_keys.
    simpl in *. intuition. }
  destruct (includes ["ArrowLeft"; "a"; "A"] key) eqn:E3.
  { exfalso. apply Hnot. apply includes_In in E3. unfold mapped_keys.
    simpl in *. intuition. }
  destruct (includes ["ArrowRight"; "d"; "D"] key) eqn:E4.
  { exfalso. apply Hnot. apply includes_In in E4. unfold mapped_keys.
    simpl in *. intuition. }
  reflexivity.
Qed.

Lemma keyDir_mapped (key : string) :
  In key mapped_keys -> exists d, keyDir key = Some d.
Proof.
  intros Hin. unfold keyDir.
  destruct (includes ["ArrowUp"; "w"; "W"] key) eqn:E1; [eauto|].
  destruct (includes ["ArrowDown"; "s"; "S"] key) eqn:E2; [eauto|].
  destruct (includes ["ArrowLeft"; "a"; "A"] key) eqn:E3; [eauto|].
  destruct (includes ["ArrowRight"; "d"; "D"] key) eqn:E4; [eauto|].
  exfalso.
  assert (N1 : ~ In key ["ArrowUp"; "w"; "W"])
    by (rewrite <- includes_In; congruence).
  assert (N2 : ~ In key ["ArrowDown"; "s"; "S"])
    by (rewrite <- includes_In; congruence).
  assert (N3 : ~ In key ["ArrowLeft"; "a"; "A"])
    by (rewrite <- includes_In; congruence).
  assert (N4 : ~ In key ["ArrowRight"; "d"; "D"])
    by (rewrite <- includes_In; congruence).
  unfold mapped_keys in Hin. simpl in *. intuition.
Qed.

Lemma reverses_opposite (d cur : Cell) :
  reverses d cur = true <-> opposite d cur.
Proof.
  unfold reverses, opposite. rewrite andb_true_iff, !Z.eqb_eq. lia.
Qed.

Lemma unit_not_self_reverse (d : Cell) :
  unit_direction d -> reverses d d = false.
Proof.
  intros [-> | [-> | [-> | ->]]]; reflexivity.
Qed.

(** X1. A key press changes at most the direction: snake, food, score,
    [gameOver] and [moveTick] are what they were, whatever the key and the
    state. *)
Theorem key_changes_only_direction (key : string) (s : GameState) :
  snake (handleKeyDown key s) = snake s /\
  food (handleKeyDown key s) = food s /\
  score (handleKeyDown key s) = score s /\
  gameOver (handleKeyDown key s) = gameOver s /\
  moveTick (handleKeyDown key s) = moveTick s.
Proof.
  unfold handleKeyDown. destruct (gameOver s) eqn:Hover; [auto 6|].
  destruct (keyDir key) as [d|]; [|auto 6].
  destruct (negb (reverses d (direction s))); auto 6.
Qed.

(** X2. Only the twelve keys ArrowUp, w, W, ArrowDown, s, S, ArrowLeft, a,
    A, ArrowRight, d, D are direction keys: every other key leaves the state
    unchanged, and each of the twelve asks for one of the four unit
    directions. *)
Theorem unmapped_key_ignored (key : string) (s : GameState) :
  (~ In key mapped_keys -> handleKeyDown key s = s) /\
  (In key mapped_keys -> exists d, keyDir key = Some d /\ unit_direction d).
Proof.
  split.
  - intros Hnot. unfold handleKeyDown. rewrite (keyDir_unmapped key Hnot).
    destruct (gameOver s); reflexivity.
  - intros Hin. destruct (keyDir_mapped key Hin) as [d Hd].
    exists d. split; [exact Hd | exact (keyDir_unit key d Hd)].
Qed.

(** X3. With a unit direction stored, a key that asks for its opposite
    leaves the state unchanged, every other direction key of a running game
    stores the direction it asks for, and the direction stored after one key
    press is never the opposite of the one stored before it. *)
Theorem one_key_never_reverses (key : string) (s : GameState) :
  unit_direction (direction s) ->
  (forall d, keyDir key = Some d -> opposite d (direction s) ->
             handleKeyDown key s = s) /\
  (forall d, keyDir key = Some d -> ~ opposite d (direction s) ->
             gameOver s = false ->
             handleKeyDown key s = setDirection d s) /\
  ~ opposite (direction (handleKeyDown key s)) (direction s).
Proof.
  intros Hunit. split; [|split].
  - intros d Hd Hopp. apply reverses_opposite in Hopp.
    unfold handleKeyDown. rewrite Hd, Hopp. simpl.
    destruct (gameOver s); reflexivity.
  - intros d Hd Hopp Hover.
    unfold handleKeyDown. rewrite Hover, Hd.
    destruct (reverses d (direction s)) eqn:E; [|reflexivity].
    apply reverses_opposite in E. contradiction.
  - assert (Hself : ~ opposite (direction s) (direction s)).
    { rewrite <- reverses_opposite, (unit_not_self_reverse _ Hunit).
      discriminate. }
    unfold handleKeyDown. destruct (gameOver s); [exact Hself|].
    destruct (keyDir key) as [d|]; [|exact Hself].
    destruct (reverses d (direction s)) eqn:E; simpl; [exact Hself|].
    rewrite <- reverses_opposite, E. discriminate.
Qed.

(** X4. Pressing the same key twice in a row has the effect of pressing
    it once. *)
Theorem key_twice_is_once (key : string) (s : GameState) :
  handleKeyDown key (handleKeyDown key s) = handleKeyDown key s.
Proof.
  assert (Hcases : handleKeyDown key s = s \/
                   (gameOver s = false /\
                    exists d, keyDir key = Some d /\
                              handleKeyDown key s = setDirection d s)).
  { unfold handleKeyDown. destruct (gameOver s); [left; reflexivity|].
    destruct (keyDir key) as [d|]; [|left; reflexivity].
    destruct (negb (reverses d (direction s))); [|left; reflexivity].
    right. split; [reflexivity|]. exists d. split; reflexivity. }
  destruct Hcases as [E | (Hover & d & Hd & E)].
  - rewrite E. exact E.
  - rewrite E. unfold handleKeyDown.
    cbn [gameOver direction setDirection]. rewrite Hover, Hd.
    rewrite (unit_not_self_reverse d (keyDir_unit key d Hd)). reflexivity.
Qed.

End Keys.

(** * More on the moveTick effect *)

Section ListFacts.

Lemma Forall_removelast {A : Type} (P : A -> Prop) (l : list A) :
  Forall P l -> Forall P (removelast l).
Proof.
  intros H. apply Forall_forall. intros c Hin.
  apply removelast_In in Hin. revert c Hin. apply Forall_forall. exact H.
Qed.

Lemma chain_removelast (l : list Cell) : chain l -> chain (removelast l).
Proof.
  induction l as [|a l IH]; intros H; [exact I|].
  destruct l as [|b l]; [exact I|].
  destruct l as [|c l]; [exact I|].
  change (removelast (a :: b :: c :: l))
    with (a :: b :: removelast (c :: l)).
  destruct H as [Hab Hrest]. split; [exact Hab|].
  exact (IH Hrest).
Qed.

Lemma all_cells_length : List.length all_cells = 256%nat.
Proof. unfold all_cells. rewrite length_map, length_seq. reflexivity. Qed.

Lemma in_grid_bounded (l : list Cell) :
  NoDup l -> Forall in_grid l -> (List.length l <= 256)%nat.
Proof.
  intros Hnd Hgrid. rewrite <- all_cells_length.
  apply NoDup_incl_length; [exact Hnd|].
  intros c Hin. apply all_cells_complete.
  revert c Hin. apply Forall_forall. exact Hgrid.
Qed.

End ListFacts.

Section TickFacts.

Variable rnd : nat -> Z.

Lemma unit_step_adjacent (head d : Cell) :
  unit_direction d -> adjacent (nextHeadOf head d) head.
Proof.
  unfold adjacent, nextHeadOf.
  intros [-> | [-> | [-> | ->]]]; cbn [x y]; lia.
Qed.

Lemma generateFood_in_grid (fuel pos : nat) (snakeArr : list Cell)
    (c : Cell) (pos' : nat) :
  in_range rnd ->
  generateFood fuel rnd pos snakeArr = Some (c, pos') -> in_grid c.
Proof.
  intros Hrange H. apply generateFood_first in H.
  destruct H as (k & _ & -> & _). split; apply Hrange.
Qed.

Lemma tick_direction (fuel pos : nat) (s s' : GameState) (pos' : nat)
    (r : TransitionResult) :
  tick fuel rnd pos s = Returns s' pos' r ->
  direction s' = direction s /\ moveTick s' = moveTick s.
Proof.
  intros H. apply tick_Returns in H.
  destruct H as [(_ & -> & _) | (_ & head & rest & _ & H)]; [auto|].
  cbv zeta in H.
  destruct H as [(_ & -> & _) | [(_ & _ & (nf & _ & ->) & _)
                                | (_ & _ & -> & _)]]; auto.
Qed.

Lemma tick_in_grid (fuel pos : nat) (s s' : GameState) (pos' : nat)
    (r : TransitionResult) :
  Forall in_grid (snake s) ->
  tick fuel rnd pos s = Returns s' pos' r ->
  Forall in_grid (snake s').
Proof.
  intros Hgrid H. apply tick_Returns in H.
  destruct H as [(_ & -> & _) | (_ & head & rest & _ & H)]; [exact Hgrid|].
  cbv zeta in H.
  destruct H as [(_ & -> & _) | [(Hc & _ & (nf & _ & ->) & _)
                                | (Hc & _ & -> & _)]].
  - exact Hgrid.
  - apply collides_false in Hc. cbn [snake setSnake].
    constructor; [apply Hc | exact Hgrid].
  - apply collides_false in Hc. cbn [snake setSnake].
    apply Forall_removelast. constructor; [apply Hc | exact Hgrid].
Qed.

Lemma tick_chain (fuel pos : nat) (s s' : GameState) (pos' : nat)
    (r : TransitionResult) :
  unit_direction (direction s) ->
  chain (snake s) ->
  tick fuel rnd pos s = Returns s' pos' r ->
  chain (snake s').
Proof.
  intros Hunit Hchain H. apply tick_Returns in H.
  destruct H as [(_ & -> & _) | (_ & head & rest & Hsnake & H)];
    [exact Hchain|].
  cbv zeta in H.
  assert (Hnew : chain (nextHeadOf head (direction s) :: snake s)).
  { rewrite Hsnake in *. split; [|exact Hchain].
    apply unit_step_adjacent, Hunit. }
  destruct H as [(_ & -> & _) | [(_ & _ & (nf & _ & ->) & _)
                                | (_ & _ & -> & _)]].
  - exact Hchain.
  - exact Hnew.
  - cbn [snake setSnake]. apply chain_removelast, Hnew.
Qed.

Lemma tick_length (fuel pos : nat) (s s' : GameState) (pos' : nat)
    (r : TransitionResult) :
  tick fuel rnd pos s = Returns s' pos' r ->
  (List.length (snake s) <= List.length (snake s'))%nat.
Proof.
  intros H. apply tick_Returns in H.
  destruct H as [(_ & -> & _) | (_ & head & rest & _ & H)]; [lia|].
  cbv zeta in H.
  destruct H as [(_ & -> & _) | [(_ & _ & (nf & _ & ->) & _)
                                | (_ & _ & -> & _)]].
  - cbn [snake setGameOver]. lia.
  - cbn [snake setSnake List.length]. lia.
  - cbn [snake setSnake]. rewrite removelast_length. lia.
Qed.

Lemma tick_food_in_grid (fuel pos : nat) (s s' : GameState) (pos' : nat)
    (r : TransitionResult) :
  in_range rnd ->
  in_grid (food s) ->
  tick fuel rnd pos s = Returns s' pos' r ->
  in_grid (food s').
Proof.
  intros Hrange Hfood H. apply tick_Returns in H.
  destruct H as [(_ & -> & _) | (_ & head & rest & _ & H)]; [exact Hfood|].
  cbv zeta in H.
  destruct H as [(_ & -> & _) | [(_ & _ & (nf & Hg & ->) & _)
                                | (_ & _ & -> & _)]].
  - exact Hfood.
  - cbn [food setSnake setFood].
    exact (generateFood_in_grid fuel pos _ nf pos' Hrange Hg).
  - exact Hfood.
Qed.

Lemma handleKeyDown_unit (key : string) (s : GameState) :
  unit_direction (direction s) ->
  unit_direction (direction (handleKeyDown key s)).
Proof.
  intros Hunit. unfold handleKeyDown. destruct (gameOver s); [exact Hunit|].
  destruct (keyDir key) as [d|] eqn:Hd; [|exact Hunit].
  destruct (negb (reverses d (direction s))); [|exact Hunit].
  exact (keyDir_unit key d Hd).
Qed.

(** The induction over executions, with the key handler as it is. *)
Lemma reachable_rule (P : GameState -> Prop) :
  (forall fuel pos f pos',
     generateFood fuel rnd pos INITIAL_SNAKE = Some (f, pos') ->
     P (mkState INITIAL_SNAKE INITIAL_DIRECTION f 0 false 0)) ->
  (forall key s, P s -> P (handleKeyDown key s)) ->
  (forall s, P s -> P (intervalFire s)) ->
  (forall fuel pos s s' pos' r,
     P s -> tick fuel rnd pos s = Returns s' pos' r -> P s') ->
  forall s, reachable rnd s -> P s.
Proof.
  intros Hinit Hkey Hint Htick s Hreach.
  induction Hreach as [fuel pos s pos' H | s e s' Hreach IH Hstep].
  - apply initialState_state in H. destruct H as [Hg ->].
    exact (Hinit fuel pos _ pos' Hg).
  - destruct Hstep as [key s | s | fuel pos s s' pos' r H
                      | fuel pos s s' pos' H].
    + apply Hkey, IH.
    + apply Hint, IH.
    + exact (Htick fuel pos s s' pos' r IH H).
    + apply handleRestart_state in H. destruct H as [Hg ->].
      exact (Hinit fuel pos _ pos' Hg).
Qed.

(** What every reachable state satisfies. *)
Lemma reachable_shape (s : GameState) :
  reachable rnd s ->
  unit_direction (direction s) /\
  Forall in_grid (snake s) /\
  chain (snake s) /\
  NoDup (snake s) /\
  ~ In (food s) (snake s) /\
  (3 <= List.length (snake s))%nat /\
  score s = Z.of_nat (List.length (snake s)) - 3.
Proof.
  apply (reachable_rule
           (fun s => unit_direction (direction s) /\
                     Forall in_grid (snake s) /\
                     chain (snake s) /\
                     NoDup (snake s) /\
                     ~ In (food s) (snake s) /\
                     (3 <= List.length (snake s))%nat /\
                     score s = Z.of_nat (List.length (snake s)) - 3)).
  - intros fuel pos f pos' Hg. cbn [direction snake food score].
    split; [right; right; right; reflexivity|].
    split; [repeat constructor; unfold GRID_SIZE; simpl; lia|].
    split; [unfold adjacent; simpl; repeat split; lia|].
    split; [exact INITIAL_SNAKE_NoDup|].
    split; [exact (generateFood_sound rnd _ fuel pos f pos' Hg)|].
    split; [simpl; lia | reflexivity].
  - intros key s0 (Hu & Hg & Hc & Hn & Hf & Hl & Hs).
    destruct (handleKeyDown_frame key s0) as (Esn & Efo & Esc & _).
    rewrite Esn, Efo, Esc.
    split; [exact (handleKeyDown_unit key s0 Hu)|]. repeat split; assumption.
  - intros s0 H. exact H.
  - intros fuel pos s0 s' pos' r (Hu & Hg & Hc & Hn & Hf & Hl & Hs) H.
    destruct (tick_direction fuel pos s0 s' pos' r H) as [Ed _].
    rewrite Ed.
    split; [exact Hu|].
    split; [exact (tick_in_grid fuel pos s0 s' pos' r Hg H)|].
    split; [exact (tick_chain fuel pos s0 s' pos' r Hu Hc H)|].
    split; [exact (tick_NoDup rnd fuel pos s0 s' pos' r Hn H)|].
    split; [exact (tick_food_free rnd fuel pos s0 s' pos' r Hf H)|].
    split; [pose proof (tick_length fuel pos s0 s' pos' r H); lia|].
    exact (tick_score rnd fuel pos s0 s' pos' r Hs H).
Qed.

Lemma reachable_food_in_grid (s : GameState) :
  in_range rnd -> reachable rnd s -> in_grid (food s).
Proof.
  intros Hrange.
  apply (reachable_rule (fun s => in_grid (food s))).
  - intros fuel pos f pos' Hg.
    exact (generateFood_in_grid fuel pos _ f pos' Hrange Hg).
  - intros key s0 H.
    destruct (handleKeyDown_frame key s0) as (_ & Efo & _).
    rewrite Efo. exact H.
  - intros s0 H. exact H.
  - intros fuel pos s0 s' pos' r H. apply tick_food_in_grid; assumption.
Qed.

End TickFacts.

Section TickExtras.

Variable rnd : nat -> Z.

(** X5. A tick never changes the direction or the tick counter.  Unless
    the snake eats, it leaves food and score alone and takes no draw from
    the random source; when the snake eats it takes at least two draws.
    Unless it crashes, it leaves [gameOver] alone. *)
Theorem tick_touches_little (fuel pos : nat) (s s' : GameState) (pos' : nat)
    (r : TransitionResult) :
  tick fuel rnd pos s = Returns s' pos' r ->
  direction s' = direction s /\
  moveTick s' = moveTick s /\
  (r <> Ate -> food s' = food s /\ score s' = score s /\ pos' = pos) /\
  (r = Ate -> (pos + 2 <= pos')%nat) /\
  (r <> Crashed -> gameOver s' = gameOver s).
Proof.
  intros H. destruct (tick_direction rnd fuel pos s s' pos' r H) as [Ed Em].
  split; [exact Ed|]. split; [exact Em|].
  apply tick_Returns in H.
  destruct H as [(_ & -> & -> & ->) | (_ & head & rest & _ & H)].
  - repeat split; try discriminate; reflexivity.
  - cbv zeta in H.
    destruct H as [(_ & -> & -> & ->) | [(_ & _ & (nf & Hg & ->) & ->)
                                        | (_ & _ & -> & -> & ->)]].
    + repeat split; try discriminate; try reflexivity. congruence.
    + apply generateFood_first in Hg. destruct Hg as (k & _ & _ & -> & _).
      repeat split; try congruence; try reflexivity. lia.
    + repeat split; try discriminate; reflexivity.
Qed.

(** X6. A tick that only moves shifts the snake: the new snake followed by
    the old tail cell is the old snake with the new head in front. *)
Theorem moved_shifts (fuel pos : nat) (s s' : GameState) (pos' : nat) :
  tick fuel rnd pos s = Returns s' pos' Moved ->
  exists head rest,
    snake s = head :: rest /\
    (snake s' ++ [last (snake s) head])%list =
      nextHeadOf head (direction s) :: snake s.
Proof.
  intros H. apply tick_Returns in H.
  destruct H as [(_ & _ & _ & Hr) | (_ & head & rest & Hsnake & H)];
    [discriminate|].
  cbv zeta in H. exists head, rest. split; [exact Hsnake|].
  destruct H as [(_ & _ & _ & Hr) | [(_ & _ & _ & Hr)
                                    | (_ & _ & -> & _)]];
    try discriminate.
  cbn [snake setSnake]. rewrite Hsnake.
  change (last (head :: rest) head)
    with (last (nextHeadOf head (direction s) :: head :: rest) head).
  symmetry. apply app_removelast_last. discriminate.
Qed.

(** X7. A direction key that is accepted steers the next tick: in a
    running game, after a key that asks for [d], not the opposite of the
    stored direction, the tick either crashes because head + [d] is outside
    the grid or on the snake, or puts head + [d] in front of the snake. *)
Theorem key_steers_next_tick (fuel pos : nat) (key : string) (d : Cell)
    (s : GameState) (head : Cell) (rest : list Cell)
    (s' : GameState) (pos' : nat) (r : TransitionResult) :
  gameOver s = false ->
  snake s = head :: rest ->
  keyDir key = Some d ->
  ~ opposite d (direction s) ->
  tick fuel rnd pos (handleKeyDown key s) = Returns s' pos' r ->
  (r = Crashed /\
   (outside_grid (nextHeadOf head d) \/ In (nextHeadOf head d) (snake s))) \/
  ((r = Moved \/ r = Ate) /\
   exists rest', snake s' = nextHeadOf head d :: rest').
Proof.
  intros Hover Hsnake Hd Hopp H.
  assert (E : handleKeyDown key s = setDirection d s).
  { unfold handleKeyDown. rewrite Hover, Hd.
    destruct (reverses d (direction s)) eqn:Er; [|reflexivity].
    apply reverses_opposite in Er. contradiction. }
  rewrite E in H. apply tick_Returns in H.
  cbn [gameOver snake direction food setDirection] in H.
  destruct H as [(Ht & _) | (_ & h & t & Hs & H)]; [congruence|].
  rewrite Hsnake in Hs. inversion Hs; subst h t. cbv zeta in H.
  destruct H as [(Hc & _ & _ & ->) | [(_ & _ & (nf & _ & ->) & ->)
                                     | (_ & _ & -> & _ & ->)]].
  - left. split; [reflexivity|]. apply collides_spec. exact Hc.
  - right. split; [right; reflexivity|]. cbn [snake setSnake]. eauto.
  - right. split; [left; reflexivity|]. cbn [snake setSnake].
    rewrite Hsnake.
    change (removelast (nextHeadOf head d :: head :: rest))
      with (nextHeadOf head d :: removelast (head :: rest)).
    eauto.
Qed.

(** X8. In a reachable state the snake is never empty, so the tick never
    fails on [newSnake[0]]; and the only tick that can fail to return is one
    that eats. *)
Theorem tick_never_throws (s : GameState) (fuel pos : nat) :
  reachable rnd s ->
  snake s <> [] /\
  tick fuel rnd pos s <> Throws /\
  (tick fuel rnd pos s = OutOfFuel ->
   exists head rest,
     snake s = head :: rest /\ nextHeadOf head (direction s) = food s).
Proof.
  intros Hreach.
  destruct (reachable_shape rnd s Hreach) as (_ & _ & _ & _ & _ & Hlen & _).
  destruct (snake s) as [|head rest] eqn:Hsnake; [simpl in Hlen; lia|].
  split; [discriminate|].
  unfold tick. rewrite Hsnake. destruct (gameOver s).
  { split; [discriminate|]. intros H; discriminate. }
  destruct (collides _ _).
  { split; [discriminate|]. intros H; discriminate. }
  destruct (eats _ _) eqn:He.
  - apply eats_spec in He.
    destruct (generateFood _ _ _ _) as [[f p]|].
    + split; [discriminate|]. intros H; discriminate.
    + split; [discriminate|]. intros _. exists head, rest. split;
        [reflexivity | exact He].
  - split; [discriminate|]. intros H; discriminate.
Qed.

(** X9. When the snake is on every cell of the grid, the tick of a running
    game crashes, whatever the direction. *)
Theorem full_board_crashes (fuel pos : nat) (s : GameState) (head : Cell)
    (rest : list Cell) :
  gameOver s = false ->
  snake s = head :: rest ->
  (forall c, in_grid c -> In c (snake s)) ->
  tick fuel rnd pos s = Returns (setGameOver true s) pos Crashed.
Proof.
  intros Hover Hsnake Hfull.
  apply (tick_collides rnd fuel pos s head rest Hover Hsnake).
  destruct (collides (nextHeadOf head (direction s)) (snake s)) eqn:Hc;
    [reflexivity|].
  apply collides_false in Hc. destruct Hc as [Hgrid Hnot].
  exfalso. exact (Hnot (Hfull _ Hgrid)).
Qed.

(** X10. When the snake eats the last free cell of the grid, the food loop
    has no cell left to return, with draws in 0..15: the tick does not
    return, however many iterations it is given. *)
Theorem last_bite_hangs (pos : nat) (s : GameState) (head : Cell)
    (rest : list Cell) :
  gameOver s = false ->
  snake s = head :: rest ->
  collides (nextHeadOf head (direction s)) (snake s) = false ->
  nextHeadOf head (direction s) = food s ->
  (forall c, in_grid c -> c = food s \/ In c (snake s)) ->
  in_range rnd ->
  forall fuel, tick fuel rnd pos s = OutOfFuel.
Proof.
  intros Hover Hsnake Hc Hfood Hfull Hrange fuel.
  unfold tick. rewrite Hover. rewrite Hsnake in *. rewrite Hc.
  apply eats_spec in Hfood. rewrite Hfood.
  rewrite generateFood_covered; [reflexivity | exact Hrange |].
  intros c Hgrid. apply eats_spec in Hfood. rewrite Hfood.
  destruct (Hfull c Hgrid) as [-> | Hin]; [left; reflexivity | right; exact Hin].
Qed.

(** X11. In every reachable state the snake has between 3 and 256 cells
    and the score is between 0 and 253. *)
Theorem length_and_score_bounds (s : GameState) :
  reachable rnd s ->
  (3 <= List.length (snake s) <= 256)%nat /\ 0 <= score s <= 253.
Proof.
  intros Hreach.
  destruct (reachable_shape rnd s Hreach)
    as (_ & Hgrid & _ & Hnd & _ & Hlen & Hscore).
  pose proof (in_grid_bounded (snake s) Hnd Hgrid). lia.
Qed.

(** X12. In every reachable state every cell of the snake is on the
    grid. *)
Theorem snake_in_grid (s : GameState) :
  reachable rnd s -> Forall in_grid (snake s).
Proof.
  intros Hreach. apply (reachable_shape rnd s Hreach).
Qed.

(** X13. In every reachable state each cell of the snake is a grid
    neighbour of the next one. *)
Theorem snake_is_chain (s : GameState) :
  reachable rnd s -> chain (snake s).
Proof.
  intros Hreach. apply (reachable_shape rnd s Hreach).
Qed.

(** X14. In every reachable state the stored direction is one of up,
    down, left, right. *)
Theorem direction_is_unit (s : GameState) :
  reachable rnd s -> unit_direction (direction s).
Proof.
  intros Hreach. apply (reachable_shape rnd s Hreach).
Qed.

(** X15. With draws in 0..15, whatever [generateFood] returns is on the
    grid, and so is the food of every reachable state. *)
Theorem food_in_grid (s : GameState) :
  in_range rnd ->
  (forall fuel pos snakeArr c pos',
     generateFood fuel rnd pos snakeArr = Some (c, pos') -> in_grid c) /\
  (reachable rnd s -> in_grid (food s)).
Proof.
  intros Hrange. split.
  - intros fuel pos snakeArr c pos' H.
    exact (generateFood_in_grid rnd fuel pos snakeArr c pos' Hrange H).
  - apply reachable_food_in_grid, Hrange.
Qed.

(** X16. [generateFood] returns the first candidate that is off the snake
    and has then taken two draws per candidate tried: with [fuel] iterations
    it returns [c] at position [pos'] exactly when some iteration [k < fuel]
    draws [c], [c] is free, all earlier candidates are on the snake, and
    [pos' = pos + 2 (k + 1)]. *)
Theorem generateFood_first_free (fuel pos : nat) (snakeArr : list Cell)
    (c : Cell) (pos' : nat) :
  generateFood fuel rnd pos snakeArr = Some (c, pos') <->
  exists k, (k < fuel)%nat /\ c = draw rnd pos k /\
            pos' = (pos + 2 * S k)%nat /\
            ~ In c snakeArr /\
            forall j, (j < k)%nat -> In (draw rnd pos j) snakeArr.
Proof.
  split; [apply generateFood_first|].
  intros (k & Hk & -> & -> & Hfree & Hbefore).
  destruct (generateFood_returns rnd snakeArr k pos Hfree) as (c2 & p2 & H).
  apply (generateFood_mono rnd snakeArr (S k)); [lia|].
  rewrite H. pose proof (generateFood_first rnd snakeArr _ _ _ _ H) as H2.
  destruct H2 as (k2 & Hk2 & -> & -> & Hfree2 & Hbefore2).
  assert (k2 = k).
  { destruct (Nat.lt_trichotomy k2 k) as [Hlt | [Heq | Hgt]].
    - exfalso. exact (Hfree2 (Hbefore k2 Hlt)).
    - exact Heq.
    - exfalso. exact (Hfree (Hbefore2 k Hgt)). }
  subst k2. reflexivity.
Qed.

(** X17. A restart forgets the state it starts from: its result is the
    initial state of the component for the same draws, tick counter
    included. *)
Theorem restart_is_fresh_mount (fuel pos : nat) (s : GameState) :
  handleRestart fuel rnd pos s = initialState fuel rnd pos.
Proof.
  unfold handleRestart, initialState.
  destruct (generateFood fuel rnd pos INITIAL_SNAKE) as [[f p]|]; reflexivity.
Qed.

End TickExtras.

(** * The canvas effect *)

Section Canvas.

Variable rnd : nat -> Z.

Lemma fills_body (l : list Cell) (style : string) (idx : nat) :
  fills style (forEach drawSegment l (S idx)) =
    map (fun c => (COLORS.snake, cellRect c)) l.
Proof.
  revert style idx. induction l as [|c l IH]; intros style idx; [reflexivity|].
  cbn [forEach drawSegment app fills Nat.eqb map]. rewrite IH. reflexivity.
Qed.

Lemma fills_snake (l : list Cell) (style : string) :
  fills style (forEach drawSegment l 0) =
    match l with
    | [] => []
    | head :: rest =>
        (COLORS.head, cellRect head)
          :: map (fun c => (COLORS.snake, cellRect c)) rest
    end.
Proof.
  destruct l as [|head rest]; [reflexivity|].
  cbn [forEach drawSegment app fills Nat.eqb]. rewrite fills_body.
  reflexivity.
Qed.

(** The rectangles the effect fills: the food, then the snake from its
    head. *)
Lemma drawBoard_fills (s : GameState) :
  fills default_fillStyle (drawBoard s) =
    (COLORS.food, cellRect (food s))
      :: match snake s with
         | [] => []
         | head :: rest =>
             (COLORS.head, cellRect head)
               :: map (fun c => (COLORS.snake, cellRect c)) rest
         end.
Proof.
  rewrite <- (fills_snake (snake s) COLORS.food). reflexivity.
Qed.

Lemma covers_cellRect (a c : Cell) : covers (cellRect a) c = true <-> a = c.
Proof.
  unfold covers, cellRect, CELL_SIZE.
  rewrite !andb_true_iff, !Z.leb_le.
  destruct a as [ax ay], c as [cx cy]; cbn [x y]. split.
  - intros (((H1 & H2) & H3) & H4). f_equal; lia.
  - intros E. inversion E; subst. lia.
Qed.

Lemma covers_same_cell (a c : Cell) : covers (cellRect a) c = same_cell c a.
Proof.
  destruct (same_cell c a) eqn:E.
  - apply covers_cellRect. apply same_cell_spec in E. exact E.
  - destruct (covers (cellRect a) c) eqn:Hc; [|reflexivity].
    apply covers_cellRect in Hc. apply same_cell_spec in Hc. congruence.
Qed.

(** Squares of one colour: a cell has that colour when it is one of them,
    and none otherwise. *)
Lemma cellColour_body (col : string) (l : list Cell) (c : Cell) :
  cellColour (map (fun a => (col, cellRect a)) l) c =
    if some_same c l then Some col else None.
Proof.
  induction l as [|a l IH]; [reflexivity|].
  cbn [map cellColour]. rewrite IH, covers_same_cell.
  unfold some_same. cbn [existsb]. fold (some_same c l).
  destruct (some_same c l), (same_cell c a); reflexivity.
Qed.

Lemma cellRect_on_canvas (c : Cell) : in_grid c -> on_canvas (cellRect c).
Proof.
  unfold in_grid, on_canvas, cellRect, GRID_SIZE, CELL_SIZE. lia.
Qed.

(** X18. With draws in 0..15, in every reachable state each rectangle the
    canvas effect fills is the 24 x 24 square of a cell of the grid, inside
    the 384 x 384 area that the effect clears first. *)
Theorem board_fills_on_canvas (s : GameState) (style : string) (r : Rect) :
  in_range rnd ->
  reachable rnd s ->
  In (style, r) (fills default_fillStyle (drawBoard s)) ->
  on_canvas r /\ exists c, in_grid c /\ r = cellRect c.
Proof.
  intros Hrange Hreach Hin.
  pose proof (reachable_food_in_grid rnd s Hrange Hreach) as Hfood.
  destruct (reachable_shape rnd s Hreach) as (_ & Hgrid & _).
  assert (Hcell : exists c, in_grid c /\ r = cellRect c).
  { rewrite drawBoard_fills in Hin. destruct Hin as [E | Hin].
    - inversion E. eauto.
    - destruct (snake s) as [|head rest]; [destruct Hin|].
      inversion Hgrid as [|? ? Hhead Hrest]; subst.
      destruct Hin as [E | Hin].
      + inversion E. eauto.
      + apply in_map_iff in Hin. destruct Hin as (c & E & Hc).
        inversion E. exists c. split; [|reflexivity].
        exact (proj1 (Forall_forall in_grid rest) Hrest c Hc). }
  destruct Hcell as (c & Hc & ->).
  split; [exact (cellRect_on_canvas c Hc) | eauto].
Qed.

(** X19. In every reachable state the board shows the state: after the
    canvas effect the food cell has the food colour, the head of the snake
    the head colour, every other cell of the snake the snake colour, and no
    other cell is filled. *)
Theorem board_colours (s : GameState) :
  reachable rnd s ->
  let fs := fills default_fillStyle (drawBoard s) in
  cellColour fs (food s) = Some COLORS.food /\
  (exists head rest,
     snake s = head :: rest /\
     cellColour fs head = Some COLORS.head /\
     forall c, In c rest -> cellColour fs c = Some COLORS.snake) /\
  (forall c, c <> food s -> ~ In c (snake s) -> cellColour fs c = None).
Proof.
  intros Hreach fs.
  destruct (reachable_shape rnd s Hreach)
    as (_ & _ & _ & Hnd & Hfood & Hlen & _).
  assert (Hfs : forall c,
             cellColour fs c =
               match snake s with
               | [] => if same_cell c (food s) then Some COLORS.food else None
               | head :: rest =>
                   if some_same c rest then Some COLORS.snake
                   else if same_cell c head then Some COLORS.head
                   else if same_cell c (food s) then Some COLORS.food
                   else None
               end).
  { intros c. unfold fs. rewrite drawBoard_fills.
    destruct (snake s) as [|head rest].
    - cbn [cellColour]. rewrite covers_same_cell. reflexivity.
    - cbn [cellColour]. rewrite cellColour_body, !covers_same_cell.
      destruct (some_same c rest), (same_cell c head),
        (same_cell c (food s)); reflexivity. }
  destruct (snake s) as [|head rest] eqn:Hsnake; [simpl in Hlen; lia|].
  inversion Hnd as [|? ? Hhead Hrest]; subst.
  assert (Hself : forall c, same_cell c c = true)
    by (intros c; apply same_cell_spec; reflexivity).
  split; [|split].
  - rewrite Hfs.
    assert (E1 : some_same (food s) rest = false).
    { apply some_same_notIn. intros H. apply Hfood. right. exact H. }
    assert (E2 : same_cell (food s) head = false).
    { destruct (same_cell (food s) head) eqn:E; [|reflexivity].
      apply same_cell_spec in E. exfalso. apply Hfood. left. exact E. }
    rewrite E1, E2, Hself. reflexivity.
  - exists head, rest. split; [reflexivity|]. split.
    + rewrite Hfs.
      assert (E1 : some_same head rest = false)
        by (apply some_same_notIn; exact Hhead).
      rewrite E1, Hself. reflexivity.
    + intros c Hc. rewrite Hfs.
      apply some_same_In in Hc. rewrite Hc. reflexivity.
  - intros c Hnf Hns. rewrite Hfs.
    assert (E1 : some_same c rest = false).
    { apply some_same_notIn. intros H. apply Hns. right. exact H. }
    assert (E2 : same_cell c head = false).
    { destruct (same_cell c head) eqn:E; [|reflexivity].
      apply same_cell_spec in E. exfalso. apply Hns. left. exact E. }
    assert (E3 : same_cell c (food s) = false).
    { destruct (same_cell c (food s)) eqn:E; [|reflexivity].
      apply same_cell_spec in E. congruence. }
    rewrite E1, E2, E3. reflexivity.
Qed.

End Canvas.


(** * The further statements at concrete states *)

Lemma corner_food_state_reachable : reachable (always 0) corner_food_state.
Proof. apply (reach_init (always 0) 1 0 corner_food_state 2). reflexivity. Qed.

Lemma last_bite_covers (c : Cell) :
  in_grid c -> c = food last_bite \/ In c (snake last_bite).
Proof.
  intros Hgrid. apply all_cells_complete in Hgrid.
  change all_cells with ({| x := 0; y := 0 |} :: tl all_cells) in Hgrid.
  destruct Hgrid as [E | Hin]; [left; symmetry; exact E | right; exact Hin].
Qed.

Lemma unmapped_key_ignored_witness :
  ~ In "Enter" mapped_keys /\
  handleKeyDown "Enter" corner_food_state = corner_food_state /\
  In "W" mapped_keys /\
  exists d, keyDir "W" = Some d /\ unit_direction d.
Proof.
  assert (Hnot : ~ In "Enter" mapped_keys)
    by (unfold mapped_keys; simpl; intuition discriminate).
  assert (Hin : In "W" mapped_keys)
    by (unfold mapped_keys; simpl; auto).
  destruct (unmapped_key_ignored "Enter" corner_food_state) as [Hign _].
  destruct (unmapped_key_ignored "W" corner_food_state) as [_ Hmap].
  split; [exact Hnot|]. split; [exact (Hign Hnot)|].
  split; [exact Hin | exact (Hmap Hin)].
Defined.

Lemma one_key_never_reverses_witness :
  unit_direction (direction corner_food_state) /\
  handleKeyDown "ArrowLeft" corner_food_state = corner_food_state /\
  ~ opposite (direction (handleKeyDown "ArrowUp" corner_food_state))
             (direction corner_food_state).
Proof.
  assert (Hunit : unit_direction (direction corner_food_state))
    by (right; right; right; reflexivity).
  split; [exact Hunit|]. split.
  - destruct (one_key_never_reverses "ArrowLeft" corner_food_state Hunit)
      as (Hrev & _).
    apply (Hrev {| x := -1; y := 0 |}); [reflexivity|].
    split; reflexivity.
  - exact (proj2 (proj2 (one_key_never_reverses "ArrowUp" corner_food_state
                           Hunit))).
Defined.

Lemma tick_touches_little_witness :
  tick 1 feeding_source 2 feeding_state = Returns fed_state 4 Ate /\
  direction fed_state = direction feeding_state /\
  moveTick fed_state = moveTick feeding_state /\
  (2 + 2 <= 4)%nat.
Proof.
  destruct (tick_touches_little feeding_source 1 2 feeding_state fed_state 4
              Ate eq_refl) as (Hd & Hm & _ & Hpos & _).
  split; [reflexivity|]. split; [exact Hd|]. split; [exact Hm|].
  exact (Hpos eq_refl).
Defined.

Lemma moved_shifts_witness :
  tick 1 (always 0) 2 corner_food_state = Returns moved_state 2 Moved /\
  exists head rest,
    snake corner_food_state = head :: rest /\
    (snake moved_state ++ [last (snake corner_food_state) head])%list =
      nextHeadOf head (direction corner_food_state) :: snake corner_food_state.
Proof.
  split; [reflexivity|].
  exact (moved_shifts (always 0) 1 2 corner_food_state moved_state 2 eq_refl).
Defined.

Lemma key_steers_next_tick_witness :
  gameOver corner_food_state = false /\
  keyDir "ArrowUp" = Some {| x := 0; y := -1 |} /\
  ~ opposite {| x := 0; y := -1 |} (direction corner_food_state) /\
  exists s',
    tick 1 (always 0) 2 (handleKeyDown "ArrowUp" corner_food_state)
      = Returns s' 2 Moved /\
    exists rest', snake s' = {| x := 8; y := 7 |} :: rest'.
Proof.
  assert (Hopp : ~ opposite {| x := 0; y := -1 |}
                     (direction corner_food_state))
    by (intros [H _]; discriminate H).
  split; [reflexivity|]. split; [reflexivity|]. split; [exact Hopp|].
  eexists. split; [reflexivity|].
  destruct (key_steers_next_tick (always 0) 1 2 "ArrowUp"
              {| x := 0; y := -1 |} corner_food_state {| x := 8; y := 8 |}
              [ {| x := 7; y := 8 |}; {| x := 6; y := 8 |} ]
              _ 2 Moved eq_refl eq_refl eq_refl Hopp eq_refl)
    as [(Hr & _) | (_ & Hhead)]; [discriminate Hr | exact Hhead].
Defined.

Lemma tick_never_throws_witness :
  reachable feeding_source fed_state /\
  snake fed_state <> [] /\
  tick 0 feeding_source 0 fed_state <> Throws.
Proof.
  split; [exact fed_state_reachable|].
  destruct (tick_never_throws feeding_source fed_state 0 0
              fed_state_reachable) as (Hne & Hthrow & _).
  split; [exact Hne | exact Hthrow].
Defined.

Lemma full_board_crashes_witness :
  gameOver full_board = false /\
  (forall c, in_grid c -> In c (snake full_board)) /\
  tick 0 (always 0) 0 full_board
    = Returns (setGameOver true full_board) 0 Crashed.
Proof.
  split; [reflexivity|]. split; [exact all_cells_complete|].
  exact (full_board_crashes (always 0) 0 0 full_board {| x := 0; y := 0 |}
           (tl all_cells) eq_refl eq_refl all_cells_complete).
Defined.

Lemma last_bite_hangs_witness :
  gameOver last_bite = false /\
  nextHeadOf {| x := 0; y := 1 |} (direction last_bite) = food last_bite /\
  (forall c, in_grid c -> c = food last_bite \/ In c (snake last_bite)) /\
  in_range (always 0) /\
  forall fuel, tick fuel (always 0) 0 last_bite = OutOfFuel.
Proof.
  split; [reflexivity|]. split; [reflexivity|].
  split; [exact last_bite_covers|]. split; [exact always_zero_in_range|].
  exact (last_bite_hangs (always 0) 0 last_bite {| x := 0; y := 1 |}
           (tl (tl all_cells)) eq_refl eq_refl eq_refl eq_refl
           last_bite_covers always_zero_in_range).
Defined.

Lemma length_and_score_bounds_witness :
  reachable feeding_source fed_state /\
  (3 <= List.length (snake fed_state) <= 256)%nat /\
  0 <= score fed_state <= 253.
Proof.
  split; [exact fed_state_reachable|].
  exact (length_and_score_bounds feeding_source fed_state
           fed_state_reachable).
Defined.

Lemma snake_in_grid_witness :
  reachable feeding_source fed_state /\ Forall in_grid (snake fed_state).
Proof.
  split; [exact fed_state_reachable|].
  exact (snake_in_grid feeding_source fed_state fed_state_reachable).
Defined.

Lemma snake_is_chain_witness :
  reachable feeding_source fed_state /\ chain (snake fed_state).
Proof.
  split; [exact fed_state_reachable|].
  exact (snake_is_chain feeding_source fed_state fed_state_reachable).
Defined.

Lemma direction_is_unit_witness :
  reachable feeding_source fed_state /\
  unit_direction (direction fed_state).
Proof.
  split; [exact fed_state_reachable|].
  exact (direction_is_unit feeding_source fed_state fed_state_reachable).
Defined.

Lemma food_in_grid_witness :
  in_range (always 0) /\
  reachable (always 0) corner_food_state /\
  in_grid (food corner_food_state).
Proof.
  split; [exact always_zero_in_range|].
  split; [exact corner_food_state_reachable|].
  exact (proj2 (food_in_grid (always 0) corner_food_state
                  always_zero_in_range) corner_food_state_reachable).
Defined.

Lemma generateFood_first_free_witness :
  generateFood 2 (always 7) 0 [ {| x := 8; y := 8 |} ]
    = Some ({| x := 7; y := 7 |}, 2%nat) /\
  exists k, (k < 2)%nat /\ {| x := 7; y := 7 |} = draw (always 7) 0 k /\
            2%nat = (0 + 2 * S k)%nat /\
            ~ In {| x := 7; y := 7 |} [ {| x := 8; y := 8 |} ] /\
            forall j, (j < k)%nat ->
                      In (draw (always 7) 0 j) [ {| x := 8; y := 8 |} ].
Proof.
  split; [reflexivity|].
  exact (proj1 (generateFood_first_free (always 7) 2 0
                  [ {| x := 8; y := 8 |} ] {| x := 7; y := 7 |} 2) eq_refl).
Defined.

Lemma board_fills_on_canvas_witness :
  in_range (always 0) /\
  reachable (always 0) corner_food_state /\
  In (COLORS.head, (192, 192, 24, 24))
     (fills default_fillStyle (drawBoard corner_food_state)) /\
  on_canvas (192, 192, 24, 24).
Proof.
  assert (Hin : In (COLORS.head, (192, 192, 24, 24))
                   (fills default_fillStyle (drawBoard corner_food_state)))
    by (right; left; reflexivity).
  split; [exact always_zero_in_range|].
  split; [exact corner_food_state_reachable|]. split; [exact Hin|].
  exact (proj1 (board_fills_on_canvas (always 0) corner_food_state
                  COLORS.head (192, 192, 24, 24) always_zero_in_range
                  corner_food_state_reachable Hin)).
Defined.

Lemma board_colours_witness :
  reachable feeding_source fed_state /\
  cellColour (fills default_fillStyle (drawBoard fed_state)) (food fed_state)
    = Some COLORS.food.
Proof.
  split; [exact fed_state_reachable|].
  exact (proj1 (board_colours feeding_source fed_state fed_state_reachable)).
Defined.
